(** * EnTT [core/algorithm.hpp]: the three sort engines

    A shallow embedding of [std_sort], [insertion_sort] and
    [radix_sort<Pass, N>] together with the properties of their results.

    Ranges [first, last) are lists; an iterator is an offset into the
    list.  Every dereference goes through [load]/[store], which check the
    offset, every [int] computation goes through [int], which checks the
    result against the range of a 32-bit [int], and a cell of an array
    declared without initialiser has no value before it is assigned:
    what C++ leaves undefined is an explicit [Undefined] outcome here.
    Conversions to [uint32_t] wrap.  A second embedding of the radix
    pass, [radix_sort_wrapping], lets [int] wrap around as well, to
    follow a pass beyond an overflow. *)

From stdpp Require Import base numbers list sorting.
From Stdlib Require Import ZArith Lia Sorting.Sorted.

Open Scope Z_scope.

(** ** Outcomes of a call *)

Inductive fault : Set :=
| OutOfBounds
| SignedOverflow
| IndeterminateValue.

Inductive outcome (A : Type) : Type :=
| Ok (a : A)
| Undefined (f : fault).

Arguments Ok {A} a.
Arguments Undefined {A} f.

#[export] Instance outcome_ret : MRet outcome := λ A a, Ok a.
#[export] Instance outcome_bind : MBind outcome := λ A B k c,
  match c with
  | Ok a => k a
  | Undefined f => Undefined f
  end.
#[export] Instance outcome_fmap : FMap outcome := λ A B g c,
  match c with
  | Ok a => Ok (g a)
  | Undefined f => Undefined f
  end.

(** ** Machine integers and arrays *)

Definition INT_MAX : Z := 2 ^ 31 - 1.
Definition INT_MIN : Z := - 2 ^ 31.
Definition UINT32_MOD : Z := 2 ^ 32.

(** The value of an [int] expression whose mathematical result is [z]. *)
Definition int (z : Z) : outcome Z :=
  if (INT_MIN <=? z) && (z <=? INT_MAX) then Ok z else Undefined SignedOverflow.

(** Conversion to [uint32_t]. *)
Definition uint32 (z : Z) : Z := z mod UINT32_MOD.

(** The value an [int] holds after an operation whose mathematical
    result is [z], on a machine where [int] arithmetic wraps around in
    two's complement instead of trapping. *)
Definition wrap_int (z : Z) : Z := (z - INT_MIN) mod UINT32_MOD + INT_MIN.

(** [*(a + i)] as an rvalue. *)
Definition load {A} (a : list A) (i : nat) : outcome A :=
  match a !! i with
  | Some x => Ok x
  | None => Undefined OutOfBounds
  end.

(** [*(a + i) = x]. *)
Definition store {A} (a : list A) (i : nat) (x : A) : outcome (list A) :=
  if decide (i < length a)%nat then Ok (<[i := x]> a) else Undefined OutOfBounds.

(** An [int] used as a subscript. *)
Definition subscript (i : Z) : outcome nat :=
  if 0 <=? i then Ok (Z.to_nat i) else Undefined OutOfBounds.

Definition read {A} (a : list A) (i : Z) : outcome A :=
  n ← subscript i; load a n.

Definition write {A} (a : list A) (i : Z) (x : A) : outcome (list A) :=
  n ← subscript i; store a n x.

(** An [int] array declared without an initialiser: a cell holds no value
    until one is assigned to it. *)
Definition read_int (a : list (option Z)) (i : Z) : outcome Z :=
  c ← read a i;
  match c with
  | Some z => Ok z
  | None => Undefined IndeterminateValue
  end.

(** ** [std_sort] *)

Module std_sort.
Section Engine.
Context {T : Type}.

(** [std::sort] itself belongs to the C++ standard library; the adapter
    is parameterised by it. *)
Variable std__sort : (T → T → bool) → list T → list T.

(** [operator()(first, last, compare)] with no extra arguments. *)
Definition call (compare : T → T → bool) (range : list T) : outcome (list T) :=
  Ok (std__sort compare range).

End Engine.
End std_sort.

(** ** [insertion_sort] *)

Module insertion_sort.
Section Engine.
Context {T : Type}.
Variable compare : T → T → bool.

(** The inner loop
    [for(; pre > first && compare(value, *(pre-1)); --pre) *pre = *(pre-1);]
    It returns the final [pre] and the array. *)
Fixpoint shift (value : T) (pre : nat) (a : list T) : outcome (nat * list T) :=
  match pre with
  | O => Ok (O, a)
  | S p =>
      y ← load a p;
      if compare value y
      then a' ← store a pre y; shift value p a'
      else Ok (pre, a)
  end.

(** The outer loop [for(auto it = first+1; it < last; ++it)], with
    [todo = last - it] iterations left. *)
Fixpoint loop (todo : nat) (it : nat) (a : list T) : outcome (list T) :=
  match todo with
  | O => Ok a
  | S todo' =>
      value ← load a it;
      '(pre, a1) ← shift value it a;
      a2 ← store a1 pre value;
      loop todo' (S it) a2
  end.

(** [operator()(first, last, compare)]. *)
Definition call (range : list T) : outcome (list T) :=
  if decide (0 < length range)%nat
  then loop (length range - 1) 1 range
  else Ok range.

End Engine.
End insertion_sort.

(** ** [radix_sort<Pass, N>] *)

(** What one call did to the caller's range and which buffers it
    allocated (the sizes of the [std::vector]s it constructed). *)
Record effect (T : Type) : Type := Effect {
  final_range : list T;
  allocated : list nat;
}.
Arguments Effect {T} _ _.
Arguments final_range {T} _.
Arguments allocated {T} _.

Module radix_sort.
Section Engine.
Context {T : Type} `{Inhabited T}.
Variables Pass N : Z.
Variable getter : T → Z.

(** [constexpr int n_buckets = 1 << Pass;] *)
Definition n_buckets : Z := Z.shiftl 1 Pass.

(** [constexpr int bit_mask = (1 << Pass) - 1;] *)
Definition bit_mask : Z := Z.shiftl 1 Pass - 1.

(** [uint32_t start_bit = pass * Pass;] *)
Definition start_bit (pass : Z) : Z := uint32 (pass * Pass).

(** [(getter(x) >> start_bit) & bit_mask], for [x] the element under [it].
    The type of the key is the getter's; its values are taken in [Z]. *)
Definition bucket_of (pass : Z) (x : T) : Z :=
  Z.land (Z.shiftr (getter x) (start_bit pass)) bit_mask.

(** First loop of [sort]: [++bucket_count[bucket]] for each element. *)
Fixpoint tally (pass : Z) (src : list T) (bucket_count : list Z) : outcome (list Z) :=
  match src with
  | [] => Ok bucket_count
  | x :: rest =>
      let bucket := bucket_of pass x in
      c ← read bucket_count bucket;
      c' ← int (c + 1);
      bucket_count' ← write bucket_count bucket c';
      tally pass rest bucket_count'
  end.

(** Second loop: [for (int i = 1; i < n_buckets; ++i)
    out_index[i] = out_index[i - 1] + bucket_count[i - 1];]
    with [todo = n_buckets - i] iterations left. *)
Fixpoint offsets (todo : nat) (i : Z) (bucket_count : list Z)
    (out_index : list (option Z)) : outcome (list (option Z)) :=
  match todo with
  | O => Ok out_index
  | S todo' =>
      o ← read_int out_index (i - 1);
      c ← read bucket_count (i - 1);
      s ← int (o + c);
      out_index' ← write out_index i (Some s);
      offsets todo' (i + 1) bucket_count out_index'
  end.

(** Third loop: [out_begin[out_index[bucket]++] = *it;] *)
Fixpoint scatter (pass : Z) (src : list T) (out_index : list (option Z))
    (out : list T) : outcome (list T) :=
  match src with
  | [] => Ok out
  | x :: rest =>
      let bucket := bucket_of pass x in
      i ← read_int out_index bucket;
      i' ← int (i + 1);
      out_index' ← write out_index bucket (Some i');
      out' ← write out i x;
      scatter pass rest out_index' out'
  end.

(** The private member [sort(first, last, out_begin, getter, pass)]:
    it reads [src] and returns the new contents of the destination.
    The parameter [pass] is a [uint32_t]. *)
Definition sort (src out : list T) (pass : Z) : outcome (list T) :=
  let pass := uint32 pass in
  let bucket_count := replicate (Z.to_nat n_buckets) 0 in
  bucket_count ← tally pass src bucket_count;
  (* [int out_index[n_buckets]; out_index[0] = 0;] *)
  out_index ← write (replicate (Z.to_nat n_buckets) None) 0 (Some 0);
  out_index ← offsets (Z.to_nat (n_buckets - 1)) 1 bucket_count out_index;
  scatter pass src out_index out.

(** [constexpr uint32_t n_passes = N / Pass;] *)
Definition n_passes : Z := uint32 (N / Pass).

(** [for (size_t pass = 0; pass < n_passes; ++pass)] with
    [todo = n_passes - pass] iterations left; the state is the caller's
    range and [aux]. *)
Fixpoint passes (todo : nat) (pass : Z) (range aux : list T)
  : outcome (list T * list T) :=
  match todo with
  | O => Ok (range, aux)
  | S todo' =>
      if Z.land pass 1 =? 0
      then aux' ← sort range aux pass; passes todo' (pass + 1) range aux'
      else range' ← sort aux range pass; passes todo' (pass + 1) range' aux
  end.

(** [for(auto &v : aux) *(it++) = std::move(v);] *)
Fixpoint move_back (aux : list T) (it : nat) (range : list T) : outcome (list T) :=
  match aux with
  | [] => Ok range
  | v :: aux' => range' ← store range it v; move_back aux' (S it) range'
  end.

(** [operator()(first, last, getter)]. *)
Definition call (range : list T) : outcome (effect T) :=
  if decide (0 < length range)%nat
  then
    let aux := replicate (length range) inhabitant in
    '(range', aux') ← passes (Z.to_nat n_passes) 0 range aux;
    range'' ← (if Z.land n_passes 1 =? 0 then Ok range' else move_back aux' 0 range');
    Ok (Effect range'' [length range])
  else Ok (Effect range []).

(** The checks made when the template is instantiated:
    [N % Pass] needs [Pass != 0], [1 << Pass] and [(1 << Pass) - 1] are
    constant expressions of type [int], and
    [static_assert((N % Pass) == 0)]. *)
Definition instantiates : bool :=
  (0 <? Pass) && (Z.shiftl 1 Pass <=? INT_MAX) && (0 <=? N) && (N mod Pass =? 0).

End Engine.

(** A use of [radix_sort<Pass, N>]: [None] when the program does not
    compile, otherwise the call operator. *)
Definition instance {T : Type} `{Inhabited T} (Pass N : Z)
  : option ((T → Z) → list T → outcome (effect T)) :=
  if instantiates Pass N then Some (call Pass N) else None.

End radix_sort.

(** ** [radix_sort::sort] where [int] wraps around

    The same three loops, run as compiled code runs them when the
    overflow of an [int] is not trapped: each [++] and [+] on an [int]
    wraps around and the pass goes on. *)

Module radix_sort_wrapping.
Section Engine.
Context {T : Type}.
Variable Pass : Z.
Variable getter : T → Z.

(** First loop of [sort]: [++bucket_count[bucket]] for each element. *)
Fixpoint tally (pass : Z) (src : list T) (bucket_count : list Z) : outcome (list Z) :=
  match src with
  | [] => Ok bucket_count
  | x :: rest =>
      let bucket := radix_sort.bucket_of Pass getter pass x in
      c ← read bucket_count bucket;
      bucket_count' ← write bucket_count bucket (wrap_int (c + 1));
      tally pass rest bucket_count'
  end.

(** Second loop: [out_index[i] = out_index[i - 1] + bucket_count[i - 1];] *)
Fixpoint offsets (todo : nat) (i : Z) (bucket_count : list Z)
    (out_index : list (option Z)) : outcome (list (option Z)) :=
  match todo with
  | O => Ok out_index
  | S todo' =>
      o ← read_int out_index (i - 1);
      c ← read bucket_count (i - 1);
      out_index' ← write out_index i (Some (wrap_int (o + c)));
      offsets todo' (i + 1) bucket_count out_index'
  end.

(** Third loop: [out_begin[out_index[bucket]++] = *it;] *)
Fixpoint scatter (pass : Z) (src : list T) (out_index : list (option Z))
    (out : list T) : outcome (list T) :=
  match src with
  | [] => Ok out
  | x :: rest =>
      let bucket := radix_sort.bucket_of Pass getter pass x in
      i ← read_int out_index bucket;
      out_index' ← write out_index bucket (Some (wrap_int (i + 1)));
      out' ← write out i x;
      scatter pass rest out_index' out'
  end.

Definition sort (src out : list T) (pass : Z) : outcome (list T) :=
  let pass := uint32 pass in
  let bucket_count := replicate (Z.to_nat (radix_sort.n_buckets Pass)) 0 in
  bucket_count ← tally pass src bucket_count;
  out_index ← write (replicate (Z.to_nat (radix_sort.n_buckets Pass)) None) 0 (Some 0);
  out_index ← offsets (Z.to_nat (radix_sort.n_buckets Pass - 1)) 1 bucket_count out_index;
  scatter pass src out_index out.

End Engine.
End radix_sort_wrapping.

(** ** Vocabulary of the specification *)

Section Vocabulary.
Context {T : Type}.

(** A comparator is a strict weak ordering. *)
Record strict_weak_order (compare : T → T → bool) : Prop := {
  swo_irreflexive x : compare x x = false;
  swo_transitive x y z :
    compare x y = true → compare y z = true → compare x z = true;
  swo_incomparable x y z :
    compare x y = false → compare y x = false →
    compare y z = false → compare z y = false →
    compare x z = false ∧ compare z x = false;
}.

(** Two elements are equal under [compare] when neither precedes the other. *)
Definition equivalent (compare : T → T → bool) (a x : T) : Prop :=
  compare a x = false ∧ compare x a = false.

#[export] Instance equivalent_dec compare a x : Decision (equivalent compare a x).
Proof. unfold equivalent. apply _. Defined.

(** No element is preceded by a later one. *)
Definition non_decreasing (compare : T → T → bool) : list T → Prop :=
  StronglySorted (λ x y, compare y x = false).

(** [out] is the stable sort of [l] under [compare]. *)
Record stable_sort_under (compare : T → T → bool) (l out : list T) : Prop := {
  under_permutation : out ≡ₚ l;
  under_sorted : non_decreasing compare out;
  under_stable : ∀ a, filter (equivalent compare a) out = filter (equivalent compare a) l;
}.

(** The same for a key in [Z]. *)
Definition sorted_by (key : T → Z) : list T → Prop :=
  StronglySorted (λ x y, key x ≤ key y).

Record stable_sort_by (key : T → Z) (l out : list T) : Prop := {
  by_permutation : out ≡ₚ l;
  by_sorted : sorted_by key out;
  by_stable : ∀ k : Z, filter (λ x, key x = k) out = filter (λ x, key x = k) l;
}.

(** How many elements of [l] fall in bucket [b] under the digit [d], and
    how many fall in a lower bucket. *)
Definition occ (d : T → Z) (b : Z) (l : list T) : nat :=
  length (filter (λ x, d x = b) l).

Definition below (d : T → Z) (b : Z) (l : list T) : nat :=
  length (filter (λ x, d x < b) l).

(** The elements of [l] grouped by ascending digit, each group in the
    order of [l]. *)
Definition grouped (d : T → Z) (n : Z) (l : list T) : list T :=
  seqZ 0 n ≫= λ b, filter (λ x, d x = b) l.

(** What ISO C++ promises of [std::sort(first, last, comp)]: the range is
    permuted, and it ends non-decreasing under [comp] when [comp] is a
    strict weak ordering.  The order of equivalent elements is not
    promised. *)
Record std_sort_contract (std__sort : (T → T → bool) → list T → list T) : Prop := {
  std_sort_permutes compare l : std__sort compare l ≡ₚ l;
  std_sort_sorts compare l :
    strict_weak_order compare → non_decreasing compare (std__sort compare l);
}.

(** [x] may stand before [y] in a descending list. *)
Definition not_before (compare : T → T → bool) (x y : T) : Prop :=
  compare x y = false.

#[export] Instance not_before_dec compare x y : Decision (not_before compare x y).
Proof. unfold not_before. apply _. Defined.

(** A sort within that contract that is not stable: sort in descending
    order, then reverse. *)
Definition descending_reversed (compare : T → T → bool) (l : list T) : list T :=
  reverse (merge_sort (not_before compare) l).

(** The key made of the [n] low bits of [z]. *)
Definition low_bits (n : Z) (z : Z) : Z := z mod 2 ^ n.

End Vocabulary.

Definition sumZ (l : list Z) : Z := foldr Z.add 0 l.

(** Modelled from the spec: [entt::identity] of [utility.hpp], the default
    getter, which is not among the sources at hand; the element is
    interpreted directly as its key. *)
Definition identity (x : Z) : Z := x.

(** A range with more elements than an [int] can count: [2 ^ 31] zeros
    followed by a one. *)
Definition large_range : list Z := replicate (Z.to_nat (2 ^ 31)) 0 ++ [1].

(** Pairs ordered by their first component. *)
Definition by_first (a b : Z * Z) : bool := a.1 <? b.1.

(** Twenty pairs with the same first component, numbered in order. *)
Definition tied_range : list (Z * Z) :=
  [(1, 0); (1, 1); (1, 2); (1, 3); (1, 4); (1, 5); (1, 6); (1, 7); (1, 8); (1, 9);
   (1, 10); (1, 11); (1, 12); (1, 13); (1, 14); (1, 15); (1, 16); (1, 17); (1, 18);
   (1, 19)].

(** The comparators [key(a) < key(b)] and [key(a) <= key(b)]; the second
    is not strict. *)
Definition less_by {T} (key : T → Z) (a b : T) : bool := key a <? key b.
Definition less_equal_by {T} (key : T → Z) (a b : T) : bool := key a <=? key b.

(** [x] may stand before [y] when ordering by [major] first and by
    [minor] among equal [major]. *)
Definition lexicographic {T} (major minor : T → Z) (x y : T) : Prop :=
  major x < major y ∨ (major x = major y ∧ minor x ≤ minor y).

(** ** Outcomes, arrays *)

Lemma bind_Ok {A B} (a : A) (k : A → outcome B) : (Ok a ≫= k) = k a.
Proof. reflexivity. Qed.

Lemma bind_Ok_inv {A B} (c : outcome A) (k : A → outcome B) b :
  (c ≫= k) = Ok b → ∃ a, c = Ok a ∧ k a = Ok b.
Proof. destruct c as [a|f]; [|done]. intros Hk. by exists a. Qed.

Lemma load_Ok {A} (a : list A) i x : a !! i = Some x → load a i = Ok x.
Proof. unfold load. by intros ->. Qed.

Lemma store_Ok {A} (a : list A) i x :
  (i < length a)%nat → store a i x = Ok (<[i := x]> a).
Proof. unfold store. intros. by rewrite decide_True. Qed.

Lemma store_Ok_inv {A} (a a' : list A) i x :
  store a i x = Ok a' → (i < length a)%nat ∧ a' = <[i := x]> a.
Proof. unfold store. case_decide; naive_solver. Qed.

Lemma int_Ok z : INT_MIN ≤ z ≤ INT_MAX → int z = Ok z.
Proof.
  intros [??]. unfold int.
  by rewrite (proj2 (Z.leb_le _ _)), (proj2 (Z.leb_le _ _)).
Qed.

Lemma int_overflow z : INT_MAX < z → int z = Undefined SignedOverflow.
Proof.
  intros Hz. unfold int.
  apply Z.leb_gt in Hz. by rewrite Hz, andb_false_r.
Qed.

Lemma read_Ok {A} (a : list A) i x :
  0 ≤ i → a !! Z.to_nat i = Some x → read a i = Ok x.
Proof.
  intros Hi Hx. unfold read, subscript.
  rewrite (proj2 (Z.leb_le _ _)) by done. rewrite bind_Ok. by apply load_Ok.
Qed.

Lemma read_int_Ok (a : list (option Z)) i z :
  0 ≤ i → a !! Z.to_nat i = Some (Some z) → read_int a i = Ok z.
Proof. intros Hi Hz. unfold read_int. by rewrite (read_Ok _ _ (Some z)). Qed.

Lemma write_Ok {A} (a : list A) i x :
  0 ≤ i < Z.of_nat (length a) → write a i x = Ok (<[Z.to_nat i := x]> a).
Proof.
  intros Hi. unfold write, subscript.
  rewrite (proj2 (Z.leb_le _ _)) by lia. rewrite bind_Ok. apply store_Ok. lia.
Qed.

Lemma land_1_even z : (Z.land z 1 =? 0) = Z.even z.
Proof.
  change 1 with (Z.ones 1). rewrite Z.land_ones by done.
  change (2 ^ 1) with 2. rewrite Zmod_even. by destruct (Z.even z).
Qed.

(** ** Lists *)

(** A [Forall] that follows from one at hand by arithmetic. *)
Ltac weaken_Forall := eapply Forall_impl; [done|]; simpl; lia.

Section ListFacts.
Context {A : Type} (P : A → Prop) `{∀ x, Decision (P x)}.

Lemma filter_none (l : list A) : Forall (λ x, ¬ P x) l → filter P l = [].
Proof.
  induction 1 as [|x l Hx _ IH]; [done|]. by rewrite filter_cons_False.
Qed.

Lemma filter_all (l : list A) : Forall P l → filter P l = l.
Proof.
  induction 1 as [|x l Hx _ IH]; [done|]. by rewrite filter_cons_True, IH.
Qed.

Lemma filter_ext_in (Q : A → Prop) `{∀ x, Decision (Q x)} (l : list A) :
  Forall (λ x, P x ↔ Q x) l → filter P l = filter Q l.
Proof.
  induction 1 as [|x l Hx _ IH]; [done|].
  rewrite !filter_cons, IH. destruct Hx.
  repeat case_decide; try done; exfalso; auto.
Qed.

End ListFacts.

Lemma StronglySorted_ext_in {A} (R R' : A → A → Prop) (l : list A) :
  (∀ x y, x ∈ l → y ∈ l → R x y → R' x y) →
  StronglySorted R l → StronglySorted R' l.
Proof.
  intros HR Hl. induction Hl as [|x l Hl IH Hx]; [constructor|].
  constructor.
  - apply IH. intros y z Hy Hz. apply HR; by right.
  - rewrite Forall_forall in Hx. apply Forall_forall. intros y Hy.
    apply HR; [by left|by right|by apply Hx].
Qed.

(** ** Stable sorts by key *)

Section StableSort.
Context {T : Type}.

Lemma stable_sort_by_ext (key key' : T → Z) (l out : list T) :
  Forall (λ x, key x = key' x) l →
  stable_sort_by key l out → stable_sort_by key' l out.
Proof.
  intros Hl [Hperm Hsorted Hstable].
  assert (Forall (λ x, key x = key' x) out) as Hout by by rewrite Hperm.
  rewrite Forall_forall in Hout.
  split; [done| |].
  - eapply StronglySorted_ext_in; [|done]. simpl.
    intros x y Hx Hy. by rewrite (Hout x), (Hout y).
  - intros k.
    rewrite <- (filter_ext_in (λ x, key x = k) (λ x, key' x = k) out).
    2:{ apply Forall_forall. intros x Hx. by rewrite (Hout x). }
    rewrite <- (filter_ext_in (λ x, key x = k) (λ x, key' x = k) l); [done|].
    eapply Forall_impl; [done|]. by intros x ->.
Qed.

Lemma sorted_by_constant (key : T → Z) (k : Z) (l : list T) :
  Forall (λ x, key x = k) l → sorted_by key l.
Proof.
  induction 1 as [|x l Hx Hl IH]; [constructor|].
  constructor; [done|].
  weaken_Forall.
Qed.

Lemma stable_sort_by_constant (key : T → Z) (k : Z) (l : list T) :
  Forall (λ x, key x = k) l → stable_sort_by key l l.
Proof. intros Hl. split; [done|by eapply sorted_by_constant|done]. Qed.

(** A list has one stable sort by a given key. *)
Lemma stable_sort_by_unique (key : T → Z) (l out out' : list T) :
  stable_sort_by key l out → stable_sort_by key l out' → out = out'.
Proof.
  intros [_ Hsorted Hstable] [_ Hsorted' Hstable'].
  assert (∀ k, filter (λ x, key x = k) out = filter (λ x, key x = k) out') as Hsame.
  { intros k. by rewrite Hstable, Hstable'. }
  clear Hstable Hstable' l. revert out' Hsorted' Hsame.
  induction Hsorted as [|x t Ht IH Hx]; intros out' Hsorted' Hsame.
  - destruct out' as [|y t']; [done|].
    specialize (Hsame (key y)). by rewrite filter_cons_True in Hsame.
  - destruct out' as [|y t'].
    { specialize (Hsame (key x)). by rewrite filter_cons_True in Hsame. }
    apply StronglySorted_cons in Hsorted' as [Hy Ht'].
    rewrite Forall_forall in Hx, Hy.
    assert (key x = key y) as Hxy.
    { apply Z.le_antisymm.
      - assert (y ∈ x :: t) as [->|Hin]%elem_of_cons; [|done|by apply Hx].
        eapply (proj1 (list_elem_of_filter (λ z, key z = key y) _ _)).
        rewrite Hsame, filter_cons_True by done. by left.
      - assert (x ∈ y :: t') as [->|Hin]%elem_of_cons; [|done|by apply Hy].
        eapply (proj1 (list_elem_of_filter (λ z, key z = key x) _ _)).
        rewrite <- Hsame, filter_cons_True by done. by left. }
    pose proof (Hsame (key x)) as Hhead.
    rewrite !filter_cons_True in Hhead by done.
    injection Hhead as <- Hhead. f_equal.
    apply IH; [done|]. intros k.
    destruct (decide (key x = k)) as [<-|Hne]; [done|].
    specialize (Hsame k). by rewrite !filter_cons_False in Hsame.
Qed.

End StableSort.

(** ** [insertion_sort] *)

Section InsertionSort.
Context {T : Type} (compare : T → T → bool).

(** The inner loop started at the end of the prefix [p] (with the cell
    after it free) moves the longest suffix of [p] that [value] precedes
    one cell up and stops at its start. *)
Lemma shift_spec value (p : list T) :
  ∀ h s, ∃ p1 p2 h',
    p = p1 ++ p2 ∧
    Forall (λ z, compare value z = true) p2 ∧
    (∀ y, last p1 = Some y → compare value y = false) ∧
    insertion_sort.shift compare value (length p) (p ++ h :: s)
      = Ok (length p1, p1 ++ h' :: p2 ++ s).
Proof.
  induction p as [|y p IH] using rev_ind; intros h s.
  - exists [], [], h. split_and!; [done|constructor|done|done].
  - rewrite length_app, Nat.add_1_r. simpl.
    rewrite (load_Ok _ _ y).
    2:{ rewrite <- app_assoc. simpl. by apply list_lookup_middle. }
    rewrite bind_Ok. destruct (compare value y) eqn:Hc.
    + rewrite store_Ok.
      2:{ rewrite !length_app. simpl. lia. }
      rewrite bind_Ok.
      replace (<[S (length p) := y]> ((p ++ [y]) ++ h :: s)) with (p ++ y :: y :: s).
      2:{ rewrite <- app_assoc. simpl.
          replace (S (length p)) with (length p + 1)%nat by lia.
          by rewrite insert_app_r. }
      destruct (IH y (y :: s)) as (p1 & p2 & h' & -> & Hp2 & Hp1 & ->).
      exists p1, (p2 ++ [y]), h'. split_and!.
      * by rewrite app_assoc.
      * apply Forall_app. split; [done|]. by constructor.
      * done.
      * by rewrite <- (app_assoc p2).
    + exists (p ++ [y]), [], h. split_and!.
      * by rewrite app_nil_r.
      * constructor.
      * intros y'. rewrite last_snoc. by intros [= <-].
      * by rewrite length_app, Nat.add_1_r.
Qed.

(** One round of the outer loop on [p ++ x :: s] with [it] at [x]. *)
Lemma loop_step todo (p : list T) x s :
  ∃ p1 p2,
    p = p1 ++ p2 ∧
    Forall (λ z, compare x z = true) p2 ∧
    (∀ y, last p1 = Some y → compare x y = false) ∧
    insertion_sort.loop compare (S todo) (length p) (p ++ x :: s)
      = insertion_sort.loop compare todo (S (length p)) ((p1 ++ x :: p2) ++ s).
Proof.
  destruct (shift_spec x p x s) as (p1 & p2 & h' & Hp & Hp2 & Hp1 & Hshift).
  exists p1, p2. split_and!; try done.
  simpl. rewrite (load_Ok _ _ x) by by apply list_lookup_middle.
  rewrite bind_Ok, Hshift, bind_Ok. simpl.
  rewrite store_Ok by (rewrite !length_app; simpl; lia).
  rewrite bind_Ok. f_equal.
  rewrite <- (Nat.add_0_r (length p1)), insert_app_r. simpl.
  by rewrite <- app_assoc.
Qed.

Hypothesis compare_swo : strict_weak_order compare.

Lemma swo_asymmetric x y : compare x y = true → compare y x = false.
Proof.
  intros Hxy. destruct (compare y x) eqn:Hyx; [|done].
  rewrite <- (swo_irreflexive _ compare_swo x).
  symmetry. by eapply swo_transitive.
Qed.

Lemma swo_negatively_transitive x y z :
  compare x y = false → compare y z = false → compare x z = false.
Proof.
  intros Hxy Hyz. destruct (compare x z) eqn:Hxz; [|done].
  destruct (compare y x) eqn:Hyx.
  { rewrite <- Hyz. symmetry. by eapply swo_transitive. }
  destruct (compare z y) eqn:Hzy.
  { rewrite <- Hxy. symmetry. by eapply swo_transitive. }
  rewrite <- Hxz.
  by apply (swo_incomparable _ compare_swo x y z).
Qed.

Lemma equivalent_transitive a x z :
  equivalent compare a x → equivalent compare a z → equivalent compare x z.
Proof.
  intros [Hax Hxa] [Haz Hza].
  split; by eapply swo_negatively_transitive.
Qed.

(** Putting [x] between [p1] and the suffix [p2] it precedes keeps the
    prefix a stable sort of what was read so far. *)
Lemma insert_stable_sort (p0 p1 p2 : list T) x :
  stable_sort_under compare p0 (p1 ++ p2) →
  Forall (λ z, compare x z = true) p2 →
  (∀ y, last p1 = Some y → compare x y = false) →
  stable_sort_under compare (p0 ++ [x]) (p1 ++ x :: p2).
Proof.
  intros [Hperm Hsorted Hstable] Hp2 Hp1.
  rewrite Forall_forall in Hp2.
  apply StronglySorted_app in Hsorted as (Hcross & Hs1 & Hs2).
  split.
  - rewrite <- Permutation_middle, Hperm. by rewrite Permutation_app_comm.
  - apply StronglySorted_app_2; [|done|].
    + intros y z Hy [->|Hz]%elem_of_cons; [|by apply Hcross].
      destruct p1 as [|y0 p1'] using rev_ind; [by apply elem_of_nil in Hy|].
      clear IHp1'. specialize (Hp1 y0 (last_snoc _ _)).
      apply elem_of_app in Hy as [Hy| ->%list_elem_of_singleton]; [|done].
      apply swo_negatively_transitive with y0; [done|].
      apply StronglySorted_app in Hs1 as (Hy0 & _ & _).
      apply Hy0; [done|]. by apply list_elem_of_singleton.
    + apply StronglySorted_cons. split; [|done].
      apply Forall_forall. intros z Hz. by apply swo_asymmetric, Hp2.
  - intros a. rewrite !filter_app, filter_cons, <- Hstable, filter_app.
    simpl. case_decide as Ha.
    + rewrite filter_cons_True, filter_nil by done.
      replace (filter (equivalent compare a) p2) with (@nil T); [by rewrite app_nil_r|].
      symmetry. apply filter_none, Forall_forall.
      intros z Hz Haz.
      destruct (equivalent_transitive a x z Ha Haz) as [Hxz _].
      rewrite Hp2 in Hxz; done.
    + rewrite filter_cons_False, filter_nil by done. by rewrite app_nil_r.
Qed.

(** A list has one stable sort under a strict weak ordering. *)
Lemma stable_sort_under_unique (l out out' : list T) :
  stable_sort_under compare l out → stable_sort_under compare l out' → out = out'.
Proof.
  intros [_ Hsorted Hstable] [_ Hsorted' Hstable'].
  assert (∀ a, filter (equivalent compare a) out = filter (equivalent compare a) out')
    as Hsame.
  { intros a. by rewrite Hstable, Hstable'. }
  assert (∀ a, equivalent compare a a) as Hrefl.
  { intros a. split; apply (swo_irreflexive _ compare_swo). }
  clear Hstable Hstable' l. revert out' Hsorted' Hsame.
  induction Hsorted as [|x t Ht IH Hx]; intros out' Hsorted' Hsame.
  - destruct out' as [|y t']; [done|].
    specialize (Hsame y). by rewrite filter_cons_True in Hsame.
  - destruct out' as [|y t'].
    { specialize (Hsame x). by rewrite filter_cons_True in Hsame. }
    apply StronglySorted_cons in Hsorted' as [Hy Ht'].
    rewrite Forall_forall in Hx, Hy.
    assert (equivalent compare x y) as Hxy.
    { split.
      - assert (x ∈ y :: t') as [->|Hin]%elem_of_cons; [|apply Hrefl|by apply Hy].
        eapply (proj1 (list_elem_of_filter (equivalent compare x) _ _)).
        rewrite <- Hsame, filter_cons_True by done. by left.
      - assert (y ∈ x :: t) as [->|Hin]%elem_of_cons; [|apply Hrefl|by apply Hx].
        eapply (proj1 (list_elem_of_filter (equivalent compare y) _ _)).
        rewrite Hsame, filter_cons_True by done. by left. }
    pose proof (Hsame x) as Hhead.
    rewrite !filter_cons_True in Hhead by done.
    injection Hhead as <- Hhead. f_equal.
    apply IH; [done|]. intros a.
    specialize (Hsame a). rewrite !filter_cons in Hsame.
    case_decide; [by injection Hsame|done].
Qed.

Lemma loop_spec (s : list T) :
  ∀ p p0, stable_sort_under compare p0 p →
    ∃ out, insertion_sort.loop compare (length s) (length p) (p ++ s) = Ok out ∧
           stable_sort_under compare (p0 ++ s) out.
Proof.
  induction s as [|x s IH]; intros p p0 Hp.
  - exists p. by rewrite !app_nil_r.
  - destruct (loop_step (length s) p x s) as (p1 & p2 & -> & Hp2 & Hp1 & Hloop).
    simpl length at 1. rewrite Hloop.
    destruct (IH (p1 ++ x :: p2) (p0 ++ [x])) as (out & Hout & Hsort).
    { by apply insert_stable_sort. }
    exists out. split.
    + rewrite <- Hout. f_equal. rewrite !length_app. simpl. lia.
    + by rewrite <- app_assoc in Hsort.
Qed.

Lemma insertion_sort_spec (range : list T) :
  ∃ out, insertion_sort.call compare range = Ok out ∧
         stable_sort_under compare range out.
Proof.
  unfold insertion_sort.call. destruct range as [|x s].
  - exists []. split; [done|]. split; [done|constructor|done].
  - rewrite decide_True by (simpl; lia).
    destruct (loop_spec s [x] [x]) as (out & Hout & Hsort).
    { split; [done| |done]. repeat constructor. }
    exists out. split; [|done].
    rewrite <- Hout. simpl. by rewrite Nat.sub_0_r.
Qed.

End InsertionSort.

(** ** Comparators and a model of [std::sort] *)

Lemma swo_by_key {T} (key : T → Z) : strict_weak_order (λ a b, key a <? key b).
Proof.
  split.
  - intros x. apply Z.ltb_irrefl.
  - intros x y z Hxy%Z.ltb_lt Hyz%Z.ltb_lt. apply Z.ltb_lt. lia.
  - intros x y z Hxy%Z.ltb_ge Hyx%Z.ltb_ge Hyz%Z.ltb_ge Hzy%Z.ltb_ge.
    split; apply Z.ltb_ge; lia.
Qed.

Lemma swo_ltb : strict_weak_order Z.ltb.
Proof. apply (swo_by_key id). Qed.

Lemma swo_by_first : strict_weak_order by_first.
Proof. apply (swo_by_key fst). Qed.

Lemma StronglySorted_reverse {A} (R : A → A → Prop) (l : list A) :
  StronglySorted R l → StronglySorted (flip R) (reverse l).
Proof.
  induction 1 as [|x l Hl IH Hx]; [constructor|].
  rewrite reverse_cons. apply StronglySorted_app_2; [|done|repeat constructor].
  intros y z Hy ->%list_elem_of_singleton. rewrite elem_of_reverse in Hy.
  rewrite Forall_forall in Hx. by apply Hx.
Qed.

Lemma descending_reversed_contract {T} : std_sort_contract (@descending_reversed T).
Proof.
  split.
  - intros compare l. unfold descending_reversed.
    by rewrite reverse_Permutation, merge_sort_Permutation.
  - intros compare l Hswo. unfold descending_reversed, non_decreasing.
    apply (StronglySorted_reverse (not_before compare)).
    apply StronglySorted_merge_sort.
    + intros x y z. apply swo_negatively_transitive. done.
    + intros x y. destruct (compare x y) eqn:Hxy; [|by left].
      right. by eapply swo_asymmetric.
Qed.

(** ** Counting by digit *)

Section Counting.
Context {T : Type} (d : T → Z).

Lemma occ_cons b x (l : list T) :
  occ d b (x :: l) = ((if decide (d x = b) then 1 else 0) + occ d b l)%nat.
Proof. unfold occ. rewrite filter_cons. by case_decide. Qed.

Lemma below_cons b x (l : list T) :
  below d b (x :: l) = ((if decide (d x < b)%Z then 1 else 0) + below d b l)%nat.
Proof. unfold below. rewrite filter_cons. by case_decide. Qed.

Lemma occ_app b (l1 l2 : list T) : occ d b (l1 ++ l2) = (occ d b l1 + occ d b l2)%nat.
Proof. unfold occ. by rewrite filter_app, length_app. Qed.

Lemma below_succ b (l : list T) :
  below d (b + 1) l = (below d b l + occ d b l)%nat.
Proof.
  induction l as [|x l IH]; [done|].
  rewrite !below_cons, occ_cons, IH. repeat case_decide; lia.
Qed.

Lemma below_mono b b' (l : list T) : b ≤ b' → (below d b l ≤ below d b' l)%nat.
Proof.
  intros Hb. induction l as [|x l IH]; [done|].
  rewrite !below_cons. repeat case_decide; lia.
Qed.

Lemma below_none b (l : list T) : Forall (λ x, b ≤ d x) l → below d b l = 0%nat.
Proof.
  intros Hl. unfold below. rewrite filter_none; [done|].
  weaken_Forall.
Qed.

Lemma below_all b (l : list T) : Forall (λ x, d x < b) l → below d b l = length l.
Proof. intros Hl. unfold below. by rewrite filter_all. Qed.

Lemma occ_le_length b (l : list T) : (occ d b l ≤ length l)%nat.
Proof. apply length_filter. Qed.

Lemma below_le_length b (l : list T) : (below d b l ≤ length l)%nat.
Proof. apply length_filter. Qed.

Lemma below_zero (l : list T) : Forall (λ x, 0 ≤ d x) l → below d 0 l = 0%nat.
Proof. apply below_none. Qed.

Lemma grouped_S (m : nat) (l : list T) :
  grouped d (Z.of_nat (S m)) l
  = grouped d (Z.of_nat m) l ++ filter (λ x, d x = Z.of_nat m) l.
Proof.
  unfold grouped. rewrite seqZ_S, bind_app, bind_singleton. by rewrite Z.add_0_l.
Qed.

(** An array holding every bucket at its offset, in order, is the
    grouped list. *)
Lemma grouped_from_lookup (n : nat) (src out : list T) :
  Forall (λ x, 0 ≤ d x < Z.of_nat n) src →
  length out = length src →
  (∀ b j, (b < n)%nat → (j < occ d (Z.of_nat b) src)%nat →
     out !! (below d (Z.of_nat b) src + j)%nat
     = filter (λ x, d x = Z.of_nat b) src !! j) →
  out = grouped d (Z.of_nat n) src.
Proof.
  intros Hd Hlen Hout.
  assert (∀ m, (m ≤ n)%nat →
            take (below d (Z.of_nat m) src) out = grouped d (Z.of_nat m) src) as Htake.
  { induction m as [|m IH]; intros Hm.
    - rewrite below_zero; [done|]. weaken_Forall.
    - rewrite grouped_S, <- IH by lia.
      replace (Z.of_nat (S m)) with (Z.of_nat m + 1) by lia.
      rewrite below_succ, <- take_take_drop. f_equal.
      apply list_eq. intros j.
      destruct (decide (j < occ d (Z.of_nat m) src)%nat).
      + rewrite lookup_take_lt, lookup_drop by done. apply Hout; lia.
      + rewrite lookup_take_ge by lia. symmetry.
        apply lookup_ge_None. fold (occ d (Z.of_nat m) src). lia. }
  rewrite <- (Htake n) by done.
  rewrite below_all.
  2:{ weaken_Forall. }
  rewrite take_ge; [done|lia].
Qed.

Lemma occ_replicate b x (n : nat) : d x = b → occ d b (replicate n x) = n.
Proof.
  intros Hx. unfold occ. rewrite filter_all, length_replicate; [done|].
  by apply Forall_replicate.
Qed.

Lemma sumZ_app (l1 l2 : list Z) : sumZ (l1 ++ l2) = sumZ l1 + sumZ l2.
Proof. induction l1 as [|z l1 IH]; simpl; lia. Qed.

(** The sum of the first [b] counts is the number of elements below
    bucket [b]. *)
Lemma sumZ_take_counts (n : nat) (counts : list Z) (src : list T) :
  (∀ b, (b < n)%nat → counts !! b = Some (Z.of_nat (occ d (Z.of_nat b) src))) →
  Forall (λ x, 0 ≤ d x) src →
  ∀ b, (b ≤ n)%nat → sumZ (take b counts) = Z.of_nat (below d (Z.of_nat b) src).
Proof.
  intros Hcounts Hd. induction b as [|b IH]; intros Hb.
  - rewrite below_zero by done. done.
  - rewrite (take_S_r _ _ _ (Hcounts b Hb)), sumZ_app, IH by lia.
    replace (Z.of_nat (S b)) with (Z.of_nat b + 1) by lia.
    rewrite below_succ. simpl. lia.
Qed.

End Counting.

(** ** Grouping by digit is a stable sort by digit *)

Section Grouping.
Context {T : Type} (d : T → Z).

Lemma grouped_nil (n : Z) : grouped d n [] = [].
Proof. unfold grouped. by induction (seqZ 0 n). Qed.

Lemma filter_grouped (P : T → Prop) `{∀ x, Decision (P x)} (m : nat) (l : list T) :
  filter P (grouped d (Z.of_nat m) l) = grouped d (Z.of_nat m) (filter P l).
Proof.
  induction m as [|m IH]; [done|].
  rewrite !grouped_S, filter_app, IH. f_equal.
  rewrite !list_filter_filter. apply list_filter_iff.
  intros x. split; intros [??]; done.
Qed.

Lemma grouped_constant (k : Z) (m : nat) (l : list T) :
  Forall (λ x, d x = k) l → 0 ≤ k →
  grouped d (Z.of_nat m) l = if decide (k < Z.of_nat m) then l else [].
Proof.
  intros Hl Hk. induction m as [|m IH].
  - by rewrite decide_False by lia.
  - rewrite grouped_S, IH. repeat case_decide; try lia.
    + rewrite filter_none, app_nil_r; [done|].
      weaken_Forall.
    + rewrite filter_all; [done|].
      weaken_Forall.
    + rewrite filter_none; [done|].
      weaken_Forall.
Qed.

Lemma filter_below_succ (b : Z) (l : list T) :
  filter (λ x, d x < b + 1) l ≡ₚ filter (λ x, d x < b) l ++ filter (λ x, d x = b) l.
Proof.
  induction l as [|x l IH]; [done|].
  rewrite !filter_cons. repeat case_decide; try lia.
  - by rewrite IH.
  - by rewrite IH, Permutation_middle.
  - done.
Qed.

Lemma grouped_below (m : nat) (l : list T) :
  Forall (λ x, 0 ≤ d x) l →
  grouped d (Z.of_nat m) l ≡ₚ filter (λ x, d x < Z.of_nat m) l.
Proof.
  intros Hl. induction m as [|m IH].
  - rewrite filter_none; [done|]. weaken_Forall.
  - rewrite grouped_S, IH.
    replace (Z.of_nat (S m)) with (Z.of_nat m + 1) by lia.
    by rewrite filter_below_succ.
Qed.

Lemma grouped_permutation (n : Z) (l : list T) :
  Forall (λ x, 0 ≤ d x < n) l → grouped d n l ≡ₚ l.
Proof.
  intros Hl. destruct (decide (0 ≤ n)) as [Hn|Hn].
  - rewrite <- (Z2Nat.id n) by done. rewrite grouped_below.
    + rewrite filter_all; [done|]. weaken_Forall.
    + weaken_Forall.
  - destruct l as [|x l]; [by rewrite grouped_nil|].
    apply Forall_cons in Hl as [? _]. lia.
Qed.

Lemma StronglySorted_filter (R : T → T → Prop) (P : T → Prop) `{∀ x, Decision (P x)}
    (l : list T) :
  StronglySorted R l → StronglySorted R (filter P l).
Proof.
  induction 1 as [|x l Hl IH Hx]; [constructor|].
  rewrite filter_cons. case_decide; [|done].
  constructor; [done|].
  apply Forall_forall. intros y [_ Hy]%list_elem_of_filter.
  rewrite Forall_forall in Hx. by apply Hx.
Qed.

(** Grouping a list sorted by [key] sorts it by any key that orders
    first by digit and then by [key]. *)
Lemma grouped_sorted (key key' : T → Z) (m : nat) (l : list T) :
  (∀ x y, d x < d y → key' x ≤ key' y) →
  (∀ x y, d x = d y → key x ≤ key y → key' x ≤ key' y) →
  Forall (λ x, 0 ≤ d x) l →
  sorted_by key l →
  sorted_by key' (grouped d (Z.of_nat m) l).
Proof.
  intros Hlt Heq Hl Hsorted. induction m as [|m IH]; [constructor|].
  rewrite grouped_S. apply StronglySorted_app_2; [|done|].
  - intros x y Hx [Hy _]%list_elem_of_filter. apply Hlt.
    rewrite grouped_below in Hx by done.
    apply list_elem_of_filter in Hx as [Hx _]. lia.
  - assert (Forall (λ x, d x = Z.of_nat m) (filter (λ x, d x = Z.of_nat m) l)) as Hsame.
    { apply Forall_forall. by intros x [? _]%list_elem_of_filter. }
    pose proof (StronglySorted_filter _ (λ x, d x = Z.of_nat m) l Hsorted) as Hf.
    induction Hf as [|x f Hf IHf Hx]; [constructor|].
    apply Forall_cons in Hsame as [Hdx Hsame].
    constructor; [by apply IHf|].
    rewrite Forall_forall in Hx, Hsame. apply Forall_forall. intros y Hy.
    apply Heq; [|by apply Hx]. rewrite Hdx. symmetry. by apply Hsame.
Qed.

(** One least-significant-digit step: if [cur] is the stable sort of [l]
    by [key < M], grouping [cur] by the next digit gives the stable sort
    of [l] by [key + M * digit]. *)
Lemma grouped_stable_step (key : T → Z) (M n : Z) (l cur : list T) :
  0 < M →
  (∀ x, 0 ≤ key x < M) →
  (∀ x, 0 ≤ d x < n) →
  stable_sort_by key l cur →
  stable_sort_by (λ x, key x + M * d x) l (grouped d n cur).
Proof.
  intros HM Hkey Hd [Hperm Hsorted Hstable].
  destruct (decide (0 ≤ n)) as [Hn|Hn].
  2:{ destruct cur as [|x ?]; [|specialize (Hd x); lia].
      apply Permutation_nil_l in Hperm. subst l. rewrite grouped_nil.
      split; [done|constructor|done]. }
  assert (∀ x v, key x + M * d x = v ↔ d x = v / M ∧ key x = v mod M) as Hsplit.
  { intros x v. pose proof (Hkey x). split.
    - intros <-. split.
      + rewrite Z.mul_comm, Z_div_plus_full by lia.
        rewrite Z.div_small by done. lia.
      + rewrite Z.mul_comm, Z_mod_plus_full. symmetry. by apply Z.mod_small.
    - intros [-> ->]. rewrite Z.add_comm. symmetry. apply Z_div_mod_eq_full. }
  split.
  - rewrite grouped_permutation; [done|]. apply Forall_forall. by intros x _.
  - rewrite <- (Z2Nat.id n) by done.
    apply grouped_sorted with key; [| |by apply Forall_forall; intros x _; apply Hd|done].
    + intros x y Hxy. pose proof (Hkey x). pose proof (Hkey y). nia.
    + intros x y Hxy ?. rewrite Hxy. lia.
  - intros v. destruct (decide (0 ≤ v / M < n)) as [Hv|Hv].
    + rewrite <- (Z2Nat.id n) by done. rewrite filter_grouped.
      rewrite (grouped_constant (v / M)), decide_True; [|lia| |lia].
      2:{ apply Forall_forall. intros x [Hx _]%list_elem_of_filter. by apply Hsplit. }
      rewrite !(list_filter_iff (λ x, _ + _ = v) (λ x, d x = v / M ∧ key x = v mod M))
        by (intros x; apply Hsplit).
      by rewrite <- !list_filter_filter, Hstable.
    + rewrite !filter_none; [done| |].
      * apply Forall_forall. intros x _ [Hx _]%Hsplit. specialize (Hd x). lia.
      * apply Forall_forall. intros x _ [Hx _]%Hsplit. specialize (Hd x). lia.
Qed.

(** Grouping is the stable sort by digit. *)
Lemma grouped_stable (n : Z) (l : list T) :
  (∀ x, 0 ≤ d x < n) → stable_sort_by d l (grouped d n l).
Proof.
  intros Hd.
  apply stable_sort_by_ext with (λ x, 0 + 1 * d x).
  { apply Forall_forall. intros x _. lia. }
  apply (grouped_stable_step (λ _, 0) 1); [lia|intros _; lia|done|].
  apply stable_sort_by_constant with 0. by apply Forall_forall.
Qed.

End Grouping.

(** ** One pass of [radix_sort] *)

Section RadixPass.
Context {T : Type} `{Inhabited T}.
Variables Pass N : Z.
Variable getter : T → Z.
Hypothesis instantiated : radix_sort.instantiates Pass N = true.

Lemma Pass_positive : 0 < Pass.
Proof.
  unfold radix_sort.instantiates in instantiated.
  repeat apply andb_prop in instantiated as [instantiated ?]. lia.
Qed.

Lemma n_buckets_pow : radix_sort.n_buckets Pass = 2 ^ Pass.
Proof.
  unfold radix_sort.n_buckets.
  rewrite Z.shiftl_mul_pow2 by (pose proof Pass_positive; lia). lia.
Qed.

Lemma n_buckets_int : 2 ≤ radix_sort.n_buckets Pass ≤ INT_MAX.
Proof.
  split.
  - rewrite n_buckets_pow. pose proof Pass_positive.
    change 2 with (2 ^ 1) at 1. apply Z.pow_le_mono_r; lia.
  - unfold radix_sort.instantiates in instantiated.
    repeat apply andb_prop in instantiated as [instantiated ?].
    unfold radix_sort.n_buckets. lia.
Qed.

Lemma bucket_of_digit pass x :
  radix_sort.bucket_of Pass getter pass x
  = (getter x / 2 ^ radix_sort.start_bit Pass pass) mod 2 ^ Pass.
Proof.
  pose proof Pass_positive.
  assert (0 ≤ radix_sort.start_bit Pass pass).
  { unfold radix_sort.start_bit, uint32, UINT32_MOD. apply Z.mod_pos_bound. lia. }
  unfold radix_sort.bucket_of, radix_sort.bit_mask.
  rewrite Z.shiftl_mul_pow2, Z.mul_1_l by lia.
  rewrite Z.shiftr_div_pow2 by done.
  replace (2 ^ Pass - 1) with (Z.ones Pass) by (rewrite Z.ones_equiv; lia).
  apply Z.land_ones. lia.
Qed.

Lemma bucket_of_range pass x :
  0 ≤ radix_sort.bucket_of Pass getter pass x < radix_sort.n_buckets Pass.
Proof.
  rewrite bucket_of_digit, n_buckets_pow. apply Z.mod_pos_bound.
  pose proof Pass_positive. apply Z.pow_pos_nonneg; lia.
Qed.

(** The first loop adds to every cell the number of elements of its
    bucket; it stops with a signed overflow exactly when a count would
    leave [int]. *)
Lemma tally_outcome pass (src : list T) :
  let d := radix_sort.bucket_of Pass getter pass in
  ∀ bucket_count : list Z,
    length bucket_count = Z.to_nat (radix_sort.n_buckets Pass) →
    (∀ b c, bucket_count !! b = Some c → 0 ≤ c ≤ INT_MAX) →
    match radix_sort.tally Pass getter pass src bucket_count with
    | Ok counts =>
        length counts = length bucket_count ∧
        ∀ b c, bucket_count !! b = Some c →
          counts !! b = Some (c + Z.of_nat (occ d (Z.of_nat b) src)) ∧
          c + Z.of_nat (occ d (Z.of_nat b) src) ≤ INT_MAX
    | Undefined f =>
        f = SignedOverflow ∧
        ∃ b c, bucket_count !! b = Some c ∧
               INT_MAX < c + Z.of_nat (occ d (Z.of_nat b) src)
    end.
Proof.
  intros d. induction src as [|x rest IH]; intros bc Hlen Hbound.
  - simpl. split; [done|]. intros b c Hb. destruct (Hbound _ _ Hb).
    unfold occ. simpl. rewrite Z.add_0_r. done.
  - simpl. fold d. pose proof (bucket_of_range pass x) as Hd. fold d in Hd.
    assert (Hk : Z.of_nat (Z.to_nat (d x)) = d x) by lia.
    destruct (lookup_lt_is_Some_2 bc (Z.to_nat (d x))) as [c Hc]; [lia|].
    destruct (Hbound _ _ Hc) as [Hc0 HcM].
    rewrite (read_Ok _ _ c), bind_Ok by (done || lia).
    destruct (decide (c + 1 ≤ INT_MAX)) as [Hfit|Hover].
    + rewrite int_Ok, bind_Ok by (unfold INT_MIN; lia).
      rewrite write_Ok, bind_Ok by lia.
      specialize (IH (<[Z.to_nat (d x) := c + 1]> bc)).
      destruct (radix_sort.tally Pass getter pass rest _) as [counts|f].
      * destruct IH as [Hlen' Hcounts].
        { by rewrite length_insert. }
        { intros b c' [(<- & <- & ?)|[? Hb]]%list_lookup_insert_Some; [lia|].
          by apply (Hbound b). }
        split; [by rewrite Hlen', length_insert|].
        intros b c' Hb. rewrite occ_cons.
        destruct (decide (b = Z.to_nat (d x))) as [->|Hne].
        -- rewrite Hk, decide_True by done. simplify_eq.
           destruct (Hcounts (Z.to_nat (d x)) (c + 1)) as [-> Hle].
           { apply list_lookup_insert_eq. lia. }
           rewrite Hk in *. split; [f_equal|]; lia.
        -- rewrite decide_False by lia.
           destruct (Hcounts b c') as [-> Hle]; [|done].
           by rewrite list_lookup_insert_ne.
      * destruct IH as [-> (b & c' & Hb & Hov)].
        { by rewrite length_insert. }
        { intros b c' [(<- & <- & ?)|[? Hb]]%list_lookup_insert_Some; [lia|].
          by apply (Hbound b). }
        split; [done|].
        apply list_lookup_insert_Some in Hb as [(<- & <- & ?)|[? Hb]].
        -- exists (Z.to_nat (d x)), c. split; [done|].
           rewrite occ_cons, Hk, decide_True by done. rewrite Hk in Hov. lia.
        -- exists b, c'. split; [done|]. rewrite occ_cons. case_decide; lia.
    + rewrite int_overflow by lia. split; [done|].
      exists (Z.to_nat (d x)), c. split; [done|].
      rewrite occ_cons, Hk, decide_True by done. lia.
Qed.

(** The second loop stores in cell [b] the number of elements in the
    buckets below [b]: the exclusive prefix sum of the counts. *)
Lemma offsets_outcome pass (src : list T) (counts : list Z) :
  let d := radix_sort.bucket_of Pass getter pass in
  (∀ b, (b < Z.to_nat (radix_sort.n_buckets Pass))%nat →
        counts !! b = Some (Z.of_nat (occ d (Z.of_nat b) src))) →
  ∀ todo i out_index,
    1 ≤ i → Z.of_nat todo + i = radix_sort.n_buckets Pass →
    length out_index = Z.to_nat (radix_sort.n_buckets Pass) →
    (∀ b, Z.of_nat b < i →
          out_index !! b = Some (Some (Z.of_nat (below d (Z.of_nat b) src)))) →
    match radix_sort.offsets todo i counts out_index with
    | Ok out_index' =>
        length out_index' = length out_index ∧
        (∀ b, (b < Z.to_nat (radix_sort.n_buckets Pass))%nat →
              out_index' !! b = Some (Some (Z.of_nat (below d (Z.of_nat b) src)))) ∧
        (∀ b, i ≤ b < radix_sort.n_buckets Pass → Z.of_nat (below d b src) ≤ INT_MAX)
    | Undefined f =>
        f = SignedOverflow ∧ INT_MAX < Z.of_nat (length src)
    end.
Proof.
  intros d Hcounts.
  induction todo as [|todo IH]; intros i oi Hi Htodo Hlen Hoi.
  - simpl. split_and!; [done| |lia]. intros b Hb. apply Hoi. lia.
  - simpl.
    rewrite (read_int_Ok oi (i - 1) (Z.of_nat (below d (i - 1) src)))
      by (first [lia | rewrite Hoi by lia; rewrite Z2Nat.id by lia; reflexivity]).
    rewrite bind_Ok.
    rewrite (read_Ok counts (i - 1) (Z.of_nat (occ d (i - 1) src)))
      by (first [lia | rewrite Hcounts by lia; rewrite Z2Nat.id by lia; reflexivity]).
    rewrite bind_Ok.
    assert (Z.of_nat (below d (i - 1) src) + Z.of_nat (occ d (i - 1) src)
            = Z.of_nat (below d i src)) as ->.
    { replace i with (i - 1 + 1) at 3 by lia. rewrite below_succ. lia. }
    pose proof (below_le_length d i src).
    destruct (decide (Z.of_nat (below d i src) ≤ INT_MAX)) as [Hfit|Hover].
    + rewrite int_Ok, bind_Ok by (unfold INT_MIN; lia).
      rewrite write_Ok, bind_Ok by lia.
      specialize (IH (i + 1) (<[Z.to_nat i := Some (Z.of_nat (below d i src))]> oi)).
      destruct (radix_sort.offsets todo (i + 1) counts _) as [oi'|f].
      * destruct IH as (Hlen' & Hoi' & Hfits); [lia|lia|by rewrite length_insert|..].
        { intros b Hb. destruct (decide (b = Z.to_nat i)) as [->|Hne].
          - rewrite list_lookup_insert_eq by lia. by rewrite Z2Nat.id by lia.
          - rewrite list_lookup_insert_ne by done. apply Hoi. lia. }
        split_and!; [by rewrite Hlen', length_insert|done|].
        intros b Hb. destruct (decide (b = i)) as [->|]; [done|]. apply Hfits. lia.
      * apply IH; [lia|lia|by rewrite length_insert|].
        intros b Hb. destruct (decide (b = Z.to_nat i)) as [->|Hne].
        -- rewrite list_lookup_insert_eq by lia. by rewrite Z2Nat.id by lia.
        -- rewrite list_lookup_insert_ne by done. apply Hoi. lia.
    + rewrite int_overflow by lia. split; [done|lia].
Qed.

(** The third loop, started after [done] has been scattered over [out]:
    cell [b] of [out_index] points just past the elements of bucket [b]
    already written, which fill the start of the bucket's segment in the
    order of [done].  Every write lands inside [out]. *)
Lemma scatter_outcome pass (src : list T) :
  let d := radix_sort.bucket_of Pass getter pass in
  let n := Z.to_nat (radix_sort.n_buckets Pass) in
  ∀ rest done out_index out,
    src = done ++ rest →
    length out_index = n →
    length out = length src →
    (∀ b, (b < n)%nat →
       out_index !! b
       = Some (Some (Z.of_nat (below d (Z.of_nat b) src + occ d (Z.of_nat b) done)))) →
    (∀ b j, (b < n)%nat → (j < occ d (Z.of_nat b) done)%nat →
       out !! (below d (Z.of_nat b) src + j)%nat
       = filter (λ x, d x = Z.of_nat b) done !! j) →
    match radix_sort.scatter Pass getter pass rest out_index out with
    | Ok out' =>
        length out' = length out ∧
        (∀ b j, (b < n)%nat → (j < occ d (Z.of_nat b) src)%nat →
           out' !! (below d (Z.of_nat b) src + j)%nat
           = filter (λ x, d x = Z.of_nat b) src !! j) ∧
        (∀ b, (0 < occ d b rest)%nat → Z.of_nat (below d (b + 1) src) ≤ INT_MAX)
    | Undefined f =>
        f = SignedOverflow ∧ INT_MAX < Z.of_nat (length src)
    end.
Proof.
  intros d n rest.
  induction rest as [|x rest IH]; intros done oi out Hsplit Hoilen Hlen Hoi Hout.
  - simpl. rewrite app_nil_r in Hsplit. subst done. split_and!; [done..|].
    intros b Hb. unfold occ in Hb. simpl in Hb. lia.
  - simpl. fold d.
    pose proof (bucket_of_range pass x) as Hd. fold d in Hd.
    assert (Hk : Z.of_nat (Z.to_nat (d x)) = d x) by lia.
    assert (Hkn : (Z.to_nat (d x) < n)%nat) by lia.
    assert (Hocc : ∀ b, occ d b src
                        = (occ d b done + ((if decide (d x = b) then 1 else 0) + occ d b rest))%nat).
    { intros b. by rewrite Hsplit, occ_app, occ_cons. }
    pose proof (below_succ d (d x) src) as Hsucc.
    pose proof (below_le_length d (d x + 1) src) as Hle.
    pose proof (Hocc (d x)) as Hocc_x. rewrite decide_True in Hocc_x by done.
    set (i := (below d (d x) src + occ d (d x) done)%nat) in *.
    rewrite (read_int_Ok oi (d x) (Z.of_nat i)).
    2: lia.
    2:{ rewrite Hoi by done. by rewrite Hk. }
    rewrite bind_Ok.
    destruct (decide (Z.of_nat i + 1 ≤ INT_MAX)) as [Hfit|Hover].
    2:{ rewrite int_overflow by lia. split; [done|lia]. }
    rewrite int_Ok, bind_Ok by (unfold INT_MIN; lia).
    rewrite (write_Ok oi), bind_Ok by lia.
    rewrite (write_Ok out), bind_Ok by lia.
    rewrite Nat2Z.id.
    specialize (IH (done ++ [x]) (<[Z.to_nat (d x) := Some (Z.of_nat i + 1)]> oi)
                  (<[i := x]> out)).
    assert (Hoi' : ∀ b, (b < n)%nat →
              <[Z.to_nat (d x) := Some (Z.of_nat i + 1)]> oi !! b
              = Some (Some (Z.of_nat (below d (Z.of_nat b) src
                                      + occ d (Z.of_nat b) (done ++ [x]))))).
    { intros b Hb. rewrite occ_app, occ_cons. unfold occ at 2. simpl.
      destruct (decide (b = Z.to_nat (d x))) as [->|Hne].
      * rewrite list_lookup_insert_eq by lia. rewrite Hk, decide_True by done.
        do 2 f_equal. subst i. lia.
      * rewrite list_lookup_insert_ne by done. rewrite decide_False by lia.
        rewrite Hoi by done. do 2 f_equal. lia. }
    assert (Hout' : ∀ b j, (b < n)%nat → (j < occ d (Z.of_nat b) (done ++ [x]))%nat →
              <[i := x]> out !! (below d (Z.of_nat b) src + j)%nat
              = filter (λ x, d x = Z.of_nat b) (done ++ [x]) !! j).
    { intros b j Hb. rewrite occ_app, occ_cons, filter_app, filter_cons.
      unfold occ at 2. simpl.
      destruct (decide (b = Z.to_nat (d x))) as [->|Hne].
      * rewrite Hk, !decide_True by done. intros Hj.
        destruct (decide (j = occ d (d x) done)) as [->|Hj'].
        -- fold i. rewrite list_lookup_insert_eq by lia.
           unfold occ. by rewrite list_lookup_middle.
        -- rewrite list_lookup_insert_ne by (subst i; lia).
           rewrite lookup_app_l by (fold (occ d (d x) done); lia).
           specialize (Hout (Z.to_nat (d x)) j). rewrite Hk in Hout.
           apply Hout; [done|lia].
      * rewrite !decide_False by lia. rewrite app_nil_r. intros Hj.
        rewrite list_lookup_insert_ne; [apply Hout; [done|lia]|].
        pose proof (Hocc (Z.of_nat b)) as Hocc_b.
        pose proof (below_succ d (Z.of_nat b) src).
        destruct (decide (Z.of_nat b < d x)).
        -- pose proof (below_mono d (Z.of_nat b + 1) (d x) src). subst i. lia.
        -- pose proof (below_mono d (d x + 1) (Z.of_nat b) src). subst i. lia. }
    destruct (radix_sort.scatter Pass getter pass rest _ _) as [out'|f].
    + destruct IH as (Hlen' & Hres & Hfits);
        [by rewrite <- app_assoc|by rewrite length_insert|by rewrite length_insert|done..|].
      split_and!; [by rewrite Hlen', length_insert|done|].
      intros b. rewrite occ_cons. intros Hb.
      destruct (decide (0 < occ d b rest)%nat) as [Hrest|Hrest]; [by apply Hfits|].
      destruct (decide (d x = b)) as [<-|]; [|lia].
      rewrite Hsucc, Hocc_x. subst i. lia.
    + apply IH;
        [by rewrite <- app_assoc|by rewrite length_insert|by rewrite length_insert|done..].
Qed.

Lemma uint32_small z : 0 ≤ z < UINT32_MOD → uint32 z = z.
Proof. intros. unfold uint32. by apply Z.mod_small. Qed.

(** One call of [sort] fills the destination with the source grouped by
    the digit of this pass when the source has at most [INT_MAX]
    elements, and overflows an [int] otherwise. *)
Lemma sort_outcome pass (src out : list T) :
  0 ≤ pass < UINT32_MOD →
  length out = length src →
  match radix_sort.sort Pass getter src out pass with
  | Ok out' =>
      out' = grouped (radix_sort.bucket_of Pass getter pass) (radix_sort.n_buckets Pass) src ∧
      Z.of_nat (length src) ≤ INT_MAX
  | Undefined f =>
      f = SignedOverflow ∧ INT_MAX < Z.of_nat (length src)
  end.
Proof.
  intros Hpass Hlen. unfold radix_sort.sort.
  rewrite uint32_small by done.
  set (d := radix_sort.bucket_of Pass getter pass).
  pose proof n_buckets_int as Hn.
  set (n := Z.to_nat (radix_sort.n_buckets Pass)).
  assert (Hrange : ∀ x, 0 ≤ d x < radix_sort.n_buckets Pass).
  { intros x. apply bucket_of_range. }
  pose proof (tally_outcome pass src (replicate n 0)) as Htally. fold d in Htally.
  destruct (radix_sort.tally Pass getter pass src _) as [counts|f].
  2:{ destruct Htally as [-> (b & c & Hb & Hov)].
      { by rewrite length_replicate. }
      { intros b c [-> _]%lookup_replicate. unfold INT_MAX. lia. }
      split; [done|]. apply lookup_replicate in Hb as [-> _].
      pose proof (occ_le_length d (Z.of_nat b) src). lia. }
  destruct Htally as [Hclen Hcounts].
  { by rewrite length_replicate. }
  { intros b c [-> _]%lookup_replicate. unfold INT_MAX. lia. }
  rewrite bind_Ok, write_Ok, bind_Ok by (rewrite length_replicate; lia).
  rewrite length_replicate in Hclen.
  assert (Hoccs : ∀ b, (b < n)%nat → counts !! b = Some (Z.of_nat (occ d (Z.of_nat b) src))).
  { intros b Hb. destruct (Hcounts b 0) as [-> _]; [by apply lookup_replicate_2|done]. }
  pose proof (offsets_outcome pass src counts Hoccs
                (Z.to_nat (radix_sort.n_buckets Pass - 1)) 1
                (<[Z.to_nat 0 := Some 0]> (replicate n None))) as Hoffsets.
  fold d in Hoffsets.
  assert (Hfirst : ∀ b, Z.of_nat b < 1 →
            <[Z.to_nat 0 := Some 0]> (replicate n None) !! b
            = Some (Some (Z.of_nat (below d (Z.of_nat b) src)))).
  { intros b Hb. assert (b = 0%nat) as -> by lia.
    rewrite list_lookup_insert_eq by (rewrite length_replicate; lia).
    rewrite below_zero; [done|].
    apply Forall_forall. intros x _. apply Hrange. }
  destruct (radix_sort.offsets _ 1 counts _) as [oi|f].
  2:{ apply Hoffsets; [lia|lia|by rewrite length_insert, length_replicate|done]. }
  destruct Hoffsets as (Hoilen & Hoi & Hbelow);
    [lia|lia|by rewrite length_insert, length_replicate|done|].
  rewrite bind_Ok.
  rewrite length_insert, length_replicate in Hoilen.
  pose proof (scatter_outcome pass src src [] oi out) as Hscatter. fold d n in Hscatter.
  destruct (radix_sort.scatter Pass getter pass src oi out) as [out'|f].
  2:{ apply Hscatter; [done..| |].
      - intros b Hb. rewrite Hoi by done. unfold occ at 1. simpl.
        by rewrite Nat.add_0_r.
      - intros b j _ Hj. unfold occ in Hj. simpl in Hj. lia. }
  destruct Hscatter as (Hlen' & Hout' & Hfits); [done..| | |].
  { intros b Hb. rewrite Hoi by done. unfold occ at 1. simpl.
    by rewrite Nat.add_0_r. }
  { intros b j _ Hj. unfold occ in Hj. simpl in Hj. lia. }
  split.
  - rewrite <- (Z2Nat.id (radix_sort.n_buckets Pass)) by lia.
    apply grouped_from_lookup; [|lia|done].
    apply Forall_forall. intros x _. fold n. specialize (Hrange x). lia.
  - set (top := radix_sort.n_buckets Pass - 1).
    assert (length src = below d (top + 1) src) as ->.
    { symmetry. apply below_all, Forall_forall. intros x _.
      specialize (Hrange x). lia. }
    destruct (decide (0 < occ d top src)%nat) as [Htop|Htop]; [by apply Hfits|].
    rewrite below_succ. specialize (Hbelow top). lia.
Qed.

Lemma sort_spec pass (src out : list T) :
  0 ≤ pass < UINT32_MOD →
  Z.of_nat (length src) ≤ INT_MAX →
  length out = length src →
  radix_sort.sort Pass getter src out pass
  = Ok (grouped (radix_sort.bucket_of Pass getter pass) (radix_sort.n_buckets Pass) src).
Proof.
  intros Hpass Hsrc Hlen. pose proof (sort_outcome pass src out Hpass Hlen) as Hsort.
  destruct (radix_sort.sort Pass getter src out pass) as [out'|f].
  - by destruct Hsort as [-> _].
  - lia.
Qed.

(** The three phases of one call of [sort] on a range that fits. *)
Lemma sort_phases pass (src out : list T) :
  let d := radix_sort.bucket_of Pass getter pass in
  let n := Z.to_nat (radix_sort.n_buckets Pass) in
  Z.of_nat (length src) ≤ INT_MAX →
  length out = length src →
  ∃ counts offs out',
    radix_sort.tally Pass getter pass src (replicate n 0) = Ok counts ∧
    length counts = n ∧
    (∀ b, (b < n)%nat → counts !! b = Some (Z.of_nat (occ d (Z.of_nat b) src))) ∧
    radix_sort.offsets (Z.to_nat (radix_sort.n_buckets Pass - 1)) 1 counts
      (<[0%nat := Some 0]> (replicate n None)) = Ok offs ∧
    (∀ b, (b < n)%nat → offs !! b = Some (Some (sumZ (take b counts)))) ∧
    radix_sort.scatter Pass getter pass src offs out = Ok out' ∧
    out' = grouped d (radix_sort.n_buckets Pass) src.
Proof.
  intros d n Hsrc Hlen.
  pose proof n_buckets_int as Hn.
  assert (Hrange : ∀ x, 0 ≤ d x < radix_sort.n_buckets Pass).
  { intros x. apply bucket_of_range. }
  pose proof (tally_outcome pass src (replicate n 0)) as Htally. fold d in Htally.
  destruct (radix_sort.tally Pass getter pass src _) as [counts|f].
  2:{ destruct Htally as [_ (b & c & Hb & Hov)].
      { by rewrite length_replicate. }
      { intros b c [-> _]%lookup_replicate. unfold INT_MAX. lia. }
      apply lookup_replicate in Hb as [-> _].
      pose proof (occ_le_length d (Z.of_nat b) src). lia. }
  destruct Htally as [Hclen Hcounts].
  { by rewrite length_replicate. }
  { intros b c [-> _]%lookup_replicate. unfold INT_MAX. lia. }
  rewrite length_replicate in Hclen.
  assert (Hoccs : ∀ b, (b < n)%nat → counts !! b = Some (Z.of_nat (occ d (Z.of_nat b) src))).
  { intros b Hb. destruct (Hcounts b 0) as [-> _]; [by apply lookup_replicate_2|done]. }
  pose proof (offsets_outcome pass src counts Hoccs
                (Z.to_nat (radix_sort.n_buckets Pass - 1)) 1
                (<[0%nat := Some 0]> (replicate n None))) as Hoffsets.
  fold d in Hoffsets.
  assert (Hfirst : ∀ b, Z.of_nat b < 1 →
            <[0%nat := Some 0]> (replicate n None) !! b
            = Some (Some (Z.of_nat (below d (Z.of_nat b) src)))).
  { intros b Hb. assert (b = 0%nat) as -> by lia.
    rewrite list_lookup_insert_eq by (rewrite length_replicate; lia).
    rewrite below_zero; [done|].
    apply Forall_forall. intros x _. apply Hrange. }
  destruct (radix_sort.offsets _ 1 counts _) as [offs|f] eqn:Hoffs.
  2:{ destruct Hoffsets as [_ ?];
        [lia|lia|by rewrite length_insert, length_replicate|done|lia]. }
  destruct Hoffsets as (Hoilen & Hoi & _);
    [lia|lia|by rewrite length_insert, length_replicate|done|].
  rewrite length_insert, length_replicate in Hoilen.
  pose proof (scatter_outcome pass src src [] offs out) as Hscatter.
  fold d n in Hscatter.
  destruct (radix_sort.scatter Pass getter pass src offs out) as [out'|f] eqn:Hsc.
  2:{ destruct Hscatter as [_ ?]; [done..| | |lia].
      - intros b Hb. rewrite Hoi by done. unfold occ at 1. simpl.
        by rewrite Nat.add_0_r.
      - intros b j _ Hj. unfold occ in Hj. simpl in Hj. lia. }
  destruct Hscatter as (Hlen' & Hout' & _); [done..| | |].
  { intros b Hb. rewrite Hoi by done. unfold occ at 1. simpl.
    by rewrite Nat.add_0_r. }
  { intros b j _ Hj. unfold occ in Hj. simpl in Hj. lia. }
  exists counts, offs, out'. split_and!; [done..| |done|].
  - intros b Hb. rewrite Hoi by done. do 2 f_equal. symmetry.
    apply (sumZ_take_counts d n); [done| |lia].
    apply Forall_forall. intros x _. specialize (Hrange x). lia.
  - rewrite <- (Z2Nat.id (radix_sort.n_buckets Pass)) by lia.
    apply grouped_from_lookup; [|lia|done].
    apply Forall_forall. intros x _. fold n. specialize (Hrange x). lia.
Qed.

(** Passes over a one-element range keep the element. *)
Lemma sort_singleton pass (x y : T) :
  0 ≤ pass < UINT32_MOD → radix_sort.sort Pass getter [x] [y] pass = Ok [x].
Proof.
  intros Hpass. rewrite sort_spec; [|done|simpl; unfold INT_MAX; lia|done].
  f_equal. apply Permutation_singleton_r, grouped_permutation.
  apply Forall_singleton, bucket_of_range.
Qed.

Lemma passes_singleton (x : T) todo :
  ∀ pass range aux,
    0 ≤ pass → pass + Z.of_nat todo ≤ UINT32_MOD →
    length range = 1%nat → length aux = 1%nat →
    (if Z.even pass then range else aux) = [x] →
    ∃ range' aux',
      radix_sort.passes Pass getter todo pass range aux = Ok (range', aux') ∧
      length range' = 1%nat ∧ length aux' = 1%nat ∧
      (if Z.even (pass + Z.of_nat todo) then range' else aux') = [x].
Proof.
  induction todo as [|todo IH]; intros pass range aux Hpass Htodo Hr Ha Hcur.
  - exists range, aux. by rewrite Z.add_0_r.
  - simpl radix_sort.passes. rewrite land_1_even.
    assert (Z.even (pass + 1) = negb (Z.even pass)) as Hparity.
    { by rewrite Z.add_1_r, Z.even_succ, <- Z.negb_even. }
    replace (pass + Z.of_nat (S todo)) with (pass + 1 + Z.of_nat todo) by lia.
    destruct (Z.even pass) eqn:Heven; subst.
    + destruct aux as [|y [|??]]; try discriminate.
      rewrite sort_singleton, bind_Ok by lia.
      apply IH; [lia|lia|done|done|by rewrite Hparity].
    + destruct range as [|y [|??]]; try discriminate.
      rewrite sort_singleton, bind_Ok by lia.
      apply IH; [lia|lia|done|done|by rewrite Hparity].
Qed.

Lemma call_singleton (x : T) :
  radix_sort.call Pass N getter [x] = Ok (Effect [x] [1%nat]).
Proof.
  unfold radix_sort.call. rewrite decide_True by (simpl; lia).
  assert (0 ≤ radix_sort.n_passes Pass N < UINT32_MOD) as Hn.
  { apply Z.mod_pos_bound. unfold UINT32_MOD. lia. }
  destruct (passes_singleton x (Z.to_nat (radix_sort.n_passes Pass N)) 0
              [x] (replicate (length [x]) inhabitant))
    as (range' & aux' & -> & Hr & Ha & Hcur); [done|lia|done|done|done|].
  rewrite bind_Ok. simpl. rewrite land_1_even.
  rewrite Z.add_0_l, Z2Nat.id in Hcur by lia.
  destruct (Z.even (radix_sort.n_passes Pass N)); subst.
  - done.
  - destruct range' as [|y [|??]]; try discriminate. done.
Qed.

End RadixPass.

(** ** The buffers keep their length *)

Section RadixLengths.
Context {T : Type} `{Inhabited T}.
Variables Pass N : Z.
Variable getter : T → Z.

Lemma write_Ok_length {A} (a a' : list A) i x :
  write a i x = Ok a' → length a' = length a.
Proof.
  unfold write. intros (n & _ & Hstore)%bind_Ok_inv.
  apply store_Ok_inv in Hstore as [_ ->]. apply length_insert.
Qed.

Lemma scatter_Ok_length pass (src : list T) :
  ∀ out_index out out',
    radix_sort.scatter Pass getter pass src out_index out = Ok out' →
    length out' = length out.
Proof.
  induction src as [|x rest IH]; intros oi out out'; simpl.
  - by intros [= <-].
  - intros (i & _ & (i' & _ & (oi' & _ & (out1 & Hw & Hrest)%bind_Ok_inv
      )%bind_Ok_inv)%bind_Ok_inv)%bind_Ok_inv.
    apply IH in Hrest. apply write_Ok_length in Hw. congruence.
Qed.

Lemma sort_Ok_length (src out out' : list T) pass :
  radix_sort.sort Pass getter src out pass = Ok out' → length out' = length out.
Proof.
  unfold radix_sort.sort.
  intros (? & _ & (? & _ & (? & _ & Hscatter)%bind_Ok_inv)%bind_Ok_inv)%bind_Ok_inv.
  by apply scatter_Ok_length in Hscatter.
Qed.

Lemma passes_Ok_length todo :
  ∀ pass (range aux range' aux' : list T),
    radix_sort.passes Pass getter todo pass range aux = Ok (range', aux') →
    length range' = length range ∧ length aux' = length aux.
Proof.
  induction todo as [|todo IH]; intros pass range aux range' aux'; simpl.
  - by intros [= <- <-].
  - destruct (Z.land pass 1 =? 0).
    + intros (next & Hsort & Hrest)%bind_Ok_inv.
      apply IH in Hrest as [-> ->]. by apply sort_Ok_length in Hsort.
    + intros (next & Hsort & Hrest)%bind_Ok_inv.
      apply IH in Hrest as [-> ->]. by apply sort_Ok_length in Hsort.
Qed.

End RadixLengths.

(** ** All passes of [radix_sort] *)

Section RadixSort.
Context {T : Type} `{Inhabited T}.
Variables Pass N : Z.
Variable getter : T → Z.
Hypothesis instantiated : radix_sort.instantiates Pass N = true.
Hypothesis key_width : N < UINT32_MOD.

Lemma N_multiple : 0 ≤ N ∧ N = N / Pass * Pass.
Proof.
  pose proof (Pass_positive Pass N instantiated).
  unfold radix_sort.instantiates in instantiated.
  repeat apply andb_prop in instantiated as [instantiated ?].
  split; [lia|].
  rewrite (Z_div_mod_eq_full N Pass) at 1. lia.
Qed.

Lemma n_passes_exact : radix_sort.n_passes Pass N = N / Pass.
Proof.
  pose proof (Pass_positive Pass N instantiated).
  destruct N_multiple as [HN Hmul].
  apply uint32_small. split; [by apply Z.div_pos|].
  assert (N / Pass ≤ N); [|lia]. nia.
Qed.

Lemma start_bit_exact pass :
  0 ≤ pass < radix_sort.n_passes Pass N →
  radix_sort.start_bit Pass pass = pass * Pass.
Proof.
  rewrite n_passes_exact. intros Hpass.
  pose proof (Pass_positive Pass N instantiated).
  destruct N_multiple as [HN Hmul].
  apply uint32_small. split; nia.
Qed.

(** The digit of pass [pass] extends the low bits sorted so far. *)
Lemma low_bits_step pass x :
  0 ≤ pass < radix_sort.n_passes Pass N →
  low_bits ((pass + 1) * Pass) (getter x)
  = low_bits (pass * Pass) (getter x)
    + 2 ^ (pass * Pass) * radix_sort.bucket_of Pass getter pass x.
Proof.
  intros Hpass. pose proof (Pass_positive Pass N instantiated).
  rewrite (bucket_of_digit Pass N getter instantiated), start_bit_exact by done.
  unfold low_bits.
  replace ((pass + 1) * Pass) with (pass * Pass + Pass) by lia.
  rewrite Z.pow_add_r by nia.
  apply Z.rem_mul_r; [|by apply Z.pow_pos_nonneg; lia].
  apply Z.pow_nonzero; [done|nia].
Qed.

Lemma sort_step pass (l cur other : list T) :
  0 ≤ pass < radix_sort.n_passes Pass N →
  Z.of_nat (length l) ≤ INT_MAX →
  length other = length l →
  stable_sort_by (λ x, low_bits (pass * Pass) (getter x)) l cur →
  ∃ next,
    radix_sort.sort Pass getter cur other pass = Ok next ∧
    length next = length l ∧
    stable_sort_by (λ x, low_bits ((pass + 1) * Pass) (getter x)) l next.
Proof.
  intros Hpass Hl Hother Hcur.
  pose proof (Pass_positive Pass N instantiated).
  assert (length cur = length l) as Hcurlen.
  { apply Permutation_length, Hcur. }
  eexists. split; [|split].
  - apply (sort_spec Pass N getter instantiated).
    + pose proof n_passes_exact. unfold radix_sort.n_passes, uint32 in *.
      pose proof (Z.mod_pos_bound (N / Pass) UINT32_MOD). unfold UINT32_MOD in *. lia.
    + lia.
    + lia.
  - rewrite <- Hcurlen. apply Permutation_length, grouped_permutation.
    apply Forall_forall. intros x _.
    apply (bucket_of_range Pass N getter instantiated).
  - eapply stable_sort_by_ext; [|eapply grouped_stable_step with (M := 2 ^ (pass * Pass)); [| | |done]].
    + apply Forall_forall. intros x _. simpl. symmetry. by apply low_bits_step.
    + apply Z.pow_pos_nonneg; [done|nia].
    + intros x. apply Z.mod_pos_bound. apply Z.pow_pos_nonneg; [done|nia].
    + intros x. apply (bucket_of_range Pass N getter instantiated).
Qed.

(** The loop over the passes: the current data is in the caller's range
    before an even pass and in [aux] before an odd one. *)
Lemma passes_spec (l : list T) :
  Z.of_nat (length l) ≤ INT_MAX →
  ∀ todo pass range aux,
    0 ≤ pass → pass + Z.of_nat todo = radix_sort.n_passes Pass N →
    length range = length l → length aux = length l →
    stable_sort_by (λ x, low_bits (pass * Pass) (getter x)) l
      (if Z.even pass then range else aux) →
    ∃ range' aux',
      radix_sort.passes Pass getter todo pass range aux = Ok (range', aux') ∧
      length range' = length l ∧ length aux' = length l ∧
      stable_sort_by (λ x, low_bits N (getter x)) l
        (if Z.even (radix_sort.n_passes Pass N) then range' else aux').
Proof.
  intros Hl. induction todo as [|todo IH]; intros pass range aux Hpass Htodo Hr Ha Hcur.
  - exists range, aux. split_and!; [done..|].
    assert (pass = radix_sort.n_passes Pass N) as Hend by lia.
    assert (pass * Pass = N) as HN.
    { rewrite Hend, n_passes_exact. symmetry. apply N_multiple. }
    rewrite HN in Hcur. by rewrite <- Hend.
  - simpl. rewrite land_1_even.
    assert (Z.even (pass + 1) = negb (Z.even pass)) as Hparity.
    { by rewrite Z.add_1_r, Z.even_succ, <- Z.negb_even. }
    destruct (Z.even pass) eqn:Heven.
    + destruct (sort_step pass l range aux) as (next & -> & Hnext & Hsorted);
        [lia|done..|].
      rewrite bind_Ok. apply IH; [lia|lia|done|done|].
      by rewrite Hparity.
    + destruct (sort_step pass l aux range) as (next & -> & Hnext & Hsorted);
        [lia|done..|].
      rewrite bind_Ok. apply IH; [lia|lia|done|done|].
      by rewrite Hparity.
Qed.

Lemma move_back_spec (aux : list T) :
  ∀ done old, length old = length aux →
    radix_sort.move_back aux (length done) (done ++ old) = Ok (done ++ aux).
Proof.
  induction aux as [|v aux IH]; intros done old Hlen.
  - destruct old; [done|discriminate].
  - destruct old as [|o old]; [discriminate|]. simpl.
    rewrite store_Ok by (rewrite length_app; simpl; lia).
    rewrite bind_Ok.
    rewrite <- (Nat.add_0_r (length done)), insert_app_r. simpl.
    specialize (IH (done ++ [v]) old). rewrite length_app in IH. simpl in IH.
    rewrite <- !app_assoc in IH. simpl in IH.
    rewrite Nat.add_0_r, <- Nat.add_1_r. apply IH. by injection Hlen.
Qed.

(** The call operator leaves in the caller's range the stable sort of
    its contents by the [N] low bits of the key. *)
Lemma call_spec (l : list T) :
  Z.of_nat (length l) ≤ INT_MAX →
  ∃ out,
    radix_sort.call Pass N getter l
      = Ok (Effect out (if decide (0 < length l)%nat then [length l] else [])) ∧
    stable_sort_by (λ x, low_bits N (getter x)) l out.
Proof.
  intros Hl. unfold radix_sort.call. case_decide as Hne.
  2:{ exists l. split; [done|]. destruct l; [|simpl in Hne; lia].
      split; [done|constructor|done]. }
  destruct (passes_spec l Hl (Z.to_nat (radix_sort.n_passes Pass N)) 0 l
              (replicate (length l) inhabitant))
    as (range' & aux' & -> & Hr & Ha & Hsorted).
  { done. }
  { rewrite n_passes_exact. pose proof (Pass_positive Pass N instantiated).
    destruct N_multiple. assert (0 ≤ N / Pass) by by apply Z.div_pos. lia. }
  { done. }
  { by rewrite length_replicate. }
  { simpl. apply stable_sort_by_constant with 0.
    apply Forall_forall. intros x _. unfold low_bits. simpl. apply Z.mod_1_r. }
  rewrite bind_Ok. simpl. rewrite land_1_even.
  destruct (Z.even (radix_sort.n_passes Pass N)).
  - rewrite bind_Ok. by exists range'.
  - pose proof (move_back_spec aux' [] range') as Hback. simpl in Hback.
    rewrite Hback by lia. rewrite bind_Ok. by exists aux'.
Qed.

(** A range too long for the [int] counters overflows in the first pass. *)
Lemma call_overflow (l : list T) :
  0 < N → INT_MAX < Z.of_nat (length l) →
  radix_sort.call Pass N getter l = Undefined SignedOverflow.
Proof.
  intros HN Hl. unfold radix_sort.call.
  rewrite decide_True by (unfold INT_MAX in Hl; lia).
  pose proof (Pass_positive Pass N instantiated).
  destruct N_multiple as [_ Hmul].
  assert (1 ≤ N / Pass) by nia.
  rewrite n_passes_exact.
  destruct (Z.to_nat (N / Pass)) as [|todo] eqn:Htodo; [lia|].
  simpl radix_sort.passes.
  pose proof (sort_outcome Pass N getter instantiated 0 l
                (replicate (length l) inhabitant)) as Hsort.
  destruct (radix_sort.sort Pass getter l _ 0) as [out|f].
  - destruct Hsort as [_ ?]; [done|by rewrite length_replicate|lia].
  - by destruct Hsort as [-> _]; [done|by rewrite length_replicate|].
Qed.

(** The only way a call can go wrong. *)
Lemma call_fault (l : list T) f :
  radix_sort.call Pass N getter l = Undefined f →
  f = SignedOverflow ∧ INT_MAX < Z.of_nat (length l).
Proof.
  intros Hcall.
  destruct (decide (Z.of_nat (length l) ≤ INT_MAX)) as [Hfit|Hlong].
  { destruct (call_spec l Hfit) as (out & Hout & _). congruence. }
  destruct (decide (0 < N)) as [HN|HN].
  { rewrite call_overflow in Hcall by lia. split; [congruence|lia]. }
  assert (N = 0) as HN0 by (pose proof N_multiple; lia).
  unfold radix_sort.call in Hcall.
  rewrite n_passes_exact, HN0 in Hcall. simpl in Hcall.
  by case_decide.
Qed.

End RadixSort.

(** ** The large range *)

Lemma large_range_length : INT_MAX < Z.of_nat (length large_range).
Proof.
  unfold large_range. rewrite length_app, length_replicate.
  change (length [1]) with 1%nat.
  rewrite Nat2Z.inj_add, Z2Nat.id by lia. unfold INT_MAX. lia.
Qed.

Lemma large_range_zeros (d : Z → Z) :
  d 0 = 0 → INT_MAX < Z.of_nat (occ d 0 large_range).
Proof.
  intros Hd. unfold large_range. rewrite occ_app, occ_replicate by done.
  rewrite Nat2Z.inj_add, Z2Nat.id by lia. unfold INT_MAX. lia.
Qed.

Lemma large_range_keys : Forall (λ x, 0 ≤ identity x < 2 ^ 8) large_range.
Proof.
  apply Forall_app. split.
  - apply Forall_replicate. unfold identity. lia.
  - apply Forall_singleton. unfold identity. lia.
Qed.

Lemma large_range_sorted (N : Z) : 1 ≤ N → sorted_by (λ x, identity x mod 2 ^ N) large_range.
Proof.
  intros HN. apply StronglySorted_app_2.
  - intros x y ->%elem_of_replicate_inv ->%list_elem_of_singleton.
    unfold identity. rewrite Z.mod_0_l by (apply Z.pow_nonzero; lia).
    apply Z.mod_pos_bound, Z.pow_pos_nonneg; lia.
  - apply sorted_by_constant with 0, Forall_replicate.
    unfold identity. apply Z.mod_0_l, Z.pow_nonzero; lia.
  - repeat constructor.
Qed.

(** ** A pass where [int] wraps around *)




Section Wrapping.
Context {T : Type}.
Variable Pass : Z.
Variable getter : T → Z.







End Wrapping.


(** * The claims *)

(** ** The worked examples of the specification *)

Example insertion_sort_5 :
  insertion_sort.call Z.ltb [5; 3; 4; 1; 2] = Ok [1; 2; 3; 4; 5].
Proof. vm_compute. reflexivity. Qed.

Example radix_sort_4_8 :
  final_range <$> radix_sort.call 4 8 identity [200; 3; 45; 0; 255; 128]
  = Ok [0; 3; 45; 128; 200; 255].
Proof. vm_compute. reflexivity. Qed.

Example radix_sort_1_1_pairs :
  final_range <$> radix_sort.call 1 1 fst [(1, 10); (1, 11); (0, 12)]
  = Ok [(0, 12); (1, 10); (1, 11)].
Proof. vm_compute. reflexivity. Qed.

(** ** Insertion sort *)

(** C2. For every range and every strict weak ordering [compare],
    [insertion_sort] returns normally and leaves in the range a
    permutation of its contents that is non-decreasing under [compare]
    and in which elements equal under [compare] keep their original
    relative order. *)
Theorem insertion_sort_stable_sort {T} (compare : T → T → bool) (l : list T) :
  strict_weak_order compare →
  ∃ out,
    insertion_sort.call compare l = Ok out ∧
    out ≡ₚ l ∧
    non_decreasing compare out ∧
    ∀ a, filter (equivalent compare a) out = filter (equivalent compare a) l.
Proof.
  intros Hswo.
  destruct (insertion_sort_spec compare Hswo l) as (out & Hcall & [Hperm Hsorted Hstable]).
  by exists out.
Qed.

Lemma insertion_sort_stable_sort_witness :
  strict_weak_order by_first ∧
  ∃ out,
    insertion_sort.call by_first [(1, 0); (0, 1); (1, 2); (0, 3)] = Ok out ∧
    out ≡ₚ [(1, 0); (0, 1); (1, 2); (0, 3)] ∧
    non_decreasing by_first out ∧
    ∀ a, filter (equivalent by_first a) out
         = filter (equivalent by_first a) [(1, 0); (0, 1); (1, 2); (0, 3)].
Proof.
  split; [exact swo_by_first|].
  apply (insertion_sort_stable_sort by_first [(1, 0); (0, 1); (1, 2); (0, 3)]).
  exact swo_by_first.
Defined.

(** ** Trivial ranges *)

(** C3 (amended). On an empty or one-element range each engine returns
    normally and leaves the range as it was.  The radix engine allocates
    nothing for an empty range; for a one-element range it does allocate
    its auxiliary buffer, of one element. *)
Theorem trivial_ranges_unchanged {T} `{Inhabited T}
    (std__sort : (T → T → bool) → list T → list T) (compare : T → T → bool)
    (Pass N : Z) (getter : T → Z) (l : list T) :
  (∀ l', std__sort compare l' ≡ₚ l') →
  radix_sort.instantiates Pass N = true →
  (length l ≤ 1)%nat →
  std_sort.call std__sort compare l = Ok l ∧
  insertion_sort.call compare l = Ok l ∧
  radix_sort.call Pass N getter l
  = Ok (Effect l (match l with [] => [] | _ :: _ => [1%nat] end)).
Proof.
  intros Hperm Hinst Hl. split_and!.
  - unfold std_sort.call. f_equal. specialize (Hperm l).
    destruct l as [|x [|??]]; [|  |simpl in Hl; lia].
    + by apply Permutation_nil_r.
    + by apply Permutation_singleton_r.
  - destruct l as [|x [|??]]; [done..|simpl in Hl; lia].
  - destruct l as [|x [|??]]; [done| |simpl in Hl; lia].
    by apply call_singleton.
Qed.

Lemma trivial_ranges_unchanged_witness :
  (∀ l', descending_reversed Z.ltb l' ≡ₚ l') ∧
  radix_sort.instantiates 8 8 = true ∧
  (length [5] ≤ 1)%nat ∧
  std_sort.call descending_reversed Z.ltb [5] = Ok [5] ∧
  insertion_sort.call Z.ltb [5] = Ok [5] ∧
  radix_sort.call 8 8 identity [5] = Ok (Effect [5] [1%nat]).
Proof.
  assert (∀ l', descending_reversed Z.ltb l' ≡ₚ l') as Hperm.
  { exact (std_sort_permutes _ descending_reversed_contract Z.ltb). }
  split_and!; [exact Hperm|reflexivity|simpl; lia|..];
    apply (trivial_ranges_unchanged descending_reversed Z.ltb 8 8 identity [5] Hperm);
    (reflexivity || (simpl; lia)).
Defined.

(** C3, as stated, fails: a one-element range does make the radix
    engine allocate. *)
Lemma radix_sort_single_element_allocates :
  radix_sort.instantiates 8 8 = true ∧
  allocated <$> radix_sort.call 8 8 identity [5] = Ok [1%nat] ∧
  allocated <$> radix_sort.call 8 8 identity [5] ≠ Ok [].
Proof.
  split_and!.
  - vm_compute. reflexivity.
  - vm_compute. reflexivity.
  - vm_compute. discriminate.
Qed.

(** ** The compile-time contract *)

(** C7. When [Pass] does not divide [N] the template does not
    instantiate: there is no engine to call.  An engine that exists has
    [N mod Pass = 0], and the only way a call of it can go wrong is by
    overflowing its [int] counters on a range of more than [INT_MAX]
    elements. *)
Theorem indivisible_width_does_not_instantiate {T} `{Inhabited T} (Pass N : Z) :
  (N mod Pass ≠ 0 → radix_sort.instance (T := T) Pass N = None) ∧
  (∀ engine, radix_sort.instance (T := T) Pass N = Some engine →
     N mod Pass = 0 ∧
     (N < UINT32_MOD → ∀ getter l f,
        engine getter l = Undefined f →
        f = SignedOverflow ∧ INT_MAX < Z.of_nat (length l))).
Proof.
  unfold radix_sort.instance.
  destruct (radix_sort.instantiates Pass N) eqn:Hinst.
  - assert (N mod Pass = 0) as Hdiv.
    { unfold radix_sort.instantiates in Hinst.
      repeat apply andb_prop in Hinst as [Hinst ?]. lia. }
    split; [done|]. intros engine [= <-]. split; [done|].
    intros HN getter l f. by apply call_fault.
  - split; [done|]. by intros engine.
Qed.

Lemma indivisible_width_does_not_instantiate_witness :
  8 mod 3 ≠ 0 ∧ radix_sort.instance (T := Z) 3 8 = None.
Proof.
  split; [discriminate|].
  apply (indivisible_width_does_not_instantiate (T := Z) 3 8). discriminate.
Defined.

(** ** Ping-pong between the range and the auxiliary buffer *)

(** C4. An even-indexed pass reads the caller's range and writes [aux],
    an odd-indexed pass reads [aux] and writes the range.  After the
    loop the result is what the range holds when the number of passes is
    even, and what [aux] holds, copied back into the range, when it is
    odd: on a range that fits the [int] counters that buffer is the one
    holding the sorted data.  With one pass of eight bits over
    [10; 5; 7] the loop leaves the range as it was and [5; 7; 10] in
    [aux], and the call returns [5; 7; 10] in the range. *)
Theorem radix_sort_ping_pong :
  (∀ T (Hi : Inhabited T) (Pass : Z) (getter : T → Z) todo pass range aux,
     radix_sort.passes Pass getter (S todo) pass range aux
     = if Z.even pass
       then aux' ← radix_sort.sort Pass getter range aux pass;
            radix_sort.passes Pass getter todo (pass + 1) range aux'
       else range' ← radix_sort.sort Pass getter aux range pass;
            radix_sort.passes Pass getter todo (pass + 1) range' aux) ∧
  (∀ T (Hi : Inhabited T) (Pass N : Z) (getter : T → Z) x l,
     radix_sort.call Pass N getter (x :: l)
     = '(range', aux') ← radix_sort.passes Pass getter
                            (Z.to_nat (radix_sort.n_passes Pass N)) 0
                            (x :: l) (replicate (length (x :: l)) inhabitant);
       Ok (Effect (if Z.even (radix_sort.n_passes Pass N) then range' else aux')
                  [length (x :: l)])) ∧
  (∀ T (Hi : Inhabited T) (Pass N : Z) (getter : T → Z) (l : list T),
     radix_sort.instantiates Pass N = true →
     N < UINT32_MOD →
     Z.of_nat (length l) ≤ INT_MAX →
     ∃ range' aux',
       radix_sort.passes Pass getter (Z.to_nat (radix_sort.n_passes Pass N)) 0 l
         (replicate (length l) inhabitant) = Ok (range', aux') ∧
       stable_sort_by (λ x, getter x mod 2 ^ N) l
         (if Z.even (radix_sort.n_passes Pass N) then range' else aux')) ∧
  radix_sort.passes 8 identity 1 0 [10; 5; 7] [0; 0; 0] = Ok ([10; 5; 7], [5; 7; 10]) ∧
  radix_sort.call 8 8 identity [10; 5; 7] = Ok (Effect [5; 7; 10] [3%nat]) ∧
  radix_sort.passes 4 identity 2 0 [200; 3; 45; 0; 255; 128] [0; 0; 0; 0; 0; 0]
  = Ok ([0; 3; 45; 128; 200; 255], [0; 128; 3; 200; 45; 255]).
Proof.
  split_and!.
  - intros. simpl. by rewrite land_1_even.
  - intros T Hi Pass N getter x l. unfold radix_sort.call.
    rewrite decide_True by (simpl; lia).
    destruct (radix_sort.passes Pass getter _ 0 (x :: l) _)
      as [[range' aux']|f] eqn:Hpasses; [|done].
    rewrite !bind_Ok. simpl. rewrite land_1_even.
    destruct (Z.even (radix_sort.n_passes Pass N)); [done|].
    apply passes_Ok_length in Hpasses as [Hr Ha].
    rewrite length_replicate in Ha.
    pose proof (move_back_spec aux' [] range') as Hback. simpl in Hback.
    rewrite Hback by congruence. done.
  - intros T Hi Pass N getter l Hinst HN Hl.
    destruct (passes_spec Pass N getter Hinst HN l Hl
                (Z.to_nat (radix_sort.n_passes Pass N)) 0 l
                (replicate (length l) inhabitant))
      as (range' & aux' & Hpasses & _ & _ & Hsorted).
    + done.
    + rewrite (n_passes_exact Pass N Hinst HN).
      pose proof (Pass_positive Pass N Hinst).
      destruct (N_multiple Pass N Hinst).
      assert (0 ≤ N / Pass) by by apply Z.div_pos. lia.
    + done.
    + by rewrite length_replicate.
    + simpl. apply stable_sort_by_constant with 0.
      apply Forall_forall. intros x _. unfold low_bits. simpl. apply Z.mod_1_r.
    + by exists range', aux'.
  - vm_compute. reflexivity.
  - vm_compute. reflexivity.
  - vm_compute. reflexivity.
Qed.

Lemma radix_sort_ping_pong_witness :
  radix_sort.instantiates 8 8 = true ∧
  8 < UINT32_MOD ∧
  Z.of_nat (length [10; 5; 7]) ≤ INT_MAX ∧
  ∃ range' aux',
    radix_sort.passes 8 identity (Z.to_nat (radix_sort.n_passes 8 8)) 0 [10; 5; 7]
      (replicate (length [10; 5; 7]) inhabitant) = Ok (range', aux') ∧
    stable_sort_by (λ x, identity x mod 2 ^ 8) [10; 5; 7]
      (if Z.even (radix_sort.n_passes 8 8) then range' else aux').
Proof.
  assert (radix_sort.instantiates 8 8 = true) as Hinst by reflexivity.
  assert (8 < UINT32_MOD) as HN by reflexivity.
  assert (Z.of_nat (length [10; 5; 7]) ≤ INT_MAX) as Hfit by (vm_compute; discriminate).
  split_and!; [exact Hinst|exact HN|exact Hfit|].
  destruct radix_sort_ping_pong as (_ & _ & Hsorted & _).
  exact (Hsorted Z _ 8 8 identity [10; 5; 7] Hinst HN Hfit).
Defined.

(** ** One bucketize pass *)

(** C5 (amended). On a source of at most [INT_MAX] elements one call of
    [sort] returns normally.  It tallies for each bucket
    [(getter(x) >> pass * Pass) & ((1 << Pass) - 1)] the number of
    elements falling in it, gives bucket [b] the sum of the counts below
    [b] as its first destination index, and scatters the source in
    order, so that the destination is a permutation of the source in
    ascending bucket order in which elements of one bucket keep the
    order they had in the source. *)
Theorem radix_pass_stable_grouping {T} `{Inhabited T} (Pass N : Z) (getter : T → Z)
    (pass : Z) (src out : list T) :
  radix_sort.instantiates Pass N = true →
  0 ≤ pass → pass * Pass < UINT32_MOD →
  length out = length src →
  Z.of_nat (length src) ≤ INT_MAX →
  let bucket x := Z.land (Z.shiftr (getter x) (pass * Pass)) (Z.shiftl 1 Pass - 1) in
  let n := Z.to_nat (Z.shiftl 1 Pass) in
  ∃ counts offs out',
    radix_sort.tally Pass getter pass src (replicate n 0) = Ok counts ∧
    (∀ b, (b < n)%nat →
       counts !! b = Some (Z.of_nat (length (filter (λ x, bucket x = Z.of_nat b) src)))) ∧
    radix_sort.offsets (Z.to_nat (Z.shiftl 1 Pass - 1)) 1 counts
      (<[0%nat := Some 0]> (replicate n None)) = Ok offs ∧
    (∀ b, (b < n)%nat → offs !! b = Some (Some (sumZ (take b counts)))) ∧
    radix_sort.scatter Pass getter pass src offs out = Ok out' ∧
    radix_sort.sort Pass getter src out pass = Ok out' ∧
    out' ≡ₚ src ∧
    sorted_by bucket out' ∧
    ∀ k, filter (λ x, bucket x = k) out' = filter (λ x, bucket x = k) src.
Proof.
  intros Hinst Hpass Hstart Hlen Hsrc bucket n.
  pose proof (Pass_positive Pass N Hinst) as HPass.
  assert (radix_sort.start_bit Pass pass = pass * Pass) as Hbit.
  { apply uint32_small. nia. }
  assert (radix_sort.bucket_of Pass getter pass = bucket) as Hbucket.
  { unfold radix_sort.bucket_of, radix_sort.bit_mask. by rewrite Hbit. }
  destruct (sort_phases Pass N getter Hinst pass src out Hsrc Hlen)
    as (counts & offs & out' & Htally & _ & Hcounts & Hoffsets & Hoffs & Hscatter & Hout).
  rewrite Hbucket in Hcounts, Hout.
  exists counts, offs, out'. split_and!; try done.
  - rewrite (sort_spec Pass N getter Hinst) by (done || nia).
    by rewrite Hbucket, Hout.
  - subst out'. apply grouped_stable. intros x. rewrite <- Hbucket.
    apply (bucket_of_range Pass N getter Hinst).
  - subst out'. apply grouped_stable. intros x. rewrite <- Hbucket.
    apply (bucket_of_range Pass N getter Hinst).
  - subst out'. apply grouped_stable. intros x. rewrite <- Hbucket.
    apply (bucket_of_range Pass N getter Hinst).
Qed.

Lemma radix_pass_stable_grouping_witness :
  radix_sort.instantiates 4 8 = true ∧
  0 ≤ 1 ∧ 1 * 4 < UINT32_MOD ∧
  length [0; 0; 0; 0; 0; 0] = length [0; 128; 3; 200; 45; 255] ∧
  Z.of_nat (length [0; 128; 3; 200; 45; 255]) ≤ INT_MAX ∧
  let bucket x := Z.land (Z.shiftr (identity x) (1 * 4)) (Z.shiftl 1 4 - 1) in
  let n := Z.to_nat (Z.shiftl 1 4) in
  ∃ counts offs out',
    radix_sort.tally 4 identity 1 [0; 128; 3; 200; 45; 255] (replicate n 0) = Ok counts ∧
    (∀ b, (b < n)%nat →
       counts !! b
       = Some (Z.of_nat (length (filter (λ x, bucket x = Z.of_nat b)
                                        [0; 128; 3; 200; 45; 255])))) ∧
    radix_sort.offsets (Z.to_nat (Z.shiftl 1 4 - 1)) 1 counts
      (<[0%nat := Some 0]> (replicate n None)) = Ok offs ∧
    (∀ b, (b < n)%nat → offs !! b = Some (Some (sumZ (take b counts)))) ∧
    radix_sort.scatter 4 identity 1 [0; 128; 3; 200; 45; 255] offs [0; 0; 0; 0; 0; 0] = Ok out' ∧
    radix_sort.sort 4 identity [0; 128; 3; 200; 45; 255] [0; 0; 0; 0; 0; 0] 1 = Ok out' ∧
    out' ≡ₚ [0; 128; 3; 200; 45; 255] ∧
    sorted_by bucket out' ∧
    ∀ k, filter (λ x, bucket x = k) out'
         = filter (λ x, bucket x = k) [0; 128; 3; 200; 45; 255].
Proof.
  assert (radix_sort.instantiates 4 8 = true) as Hinst by reflexivity.
  assert (1 * 4 < UINT32_MOD) as Hstart by (vm_compute; reflexivity).
  assert (Z.of_nat (length [0; 128; 3; 200; 45; 255]) ≤ INT_MAX) as Hfit
    by (vm_compute; discriminate).
  split_and!; [exact Hinst|lia|exact Hstart|reflexivity|exact Hfit|].
  apply (radix_pass_stable_grouping 4 8 identity 1 [0; 128; 3; 200; 45; 255] [0; 0; 0; 0; 0; 0]
           Hinst); [lia|exact Hstart|reflexivity|exact Hfit].
Defined.

(** C5, as stated, fails on a source too long for the [int] counters:
    the pass overflows and yields no destination at all. *)
Lemma radix_pass_undefined_on_large_range :
  radix_sort.instantiates 8 8 = true ∧
  ¬ ∃ out',
      radix_sort.sort 8 identity large_range (replicate (length large_range) 0) 0 = Ok out' ∧
      out' ≡ₚ large_range.
Proof.
  assert (radix_sort.instantiates 8 8 = true) as Hinst by reflexivity.
  split; [done|]. intros (out' & Hsort & _).
  pose proof (sort_outcome 8 8 identity Hinst 0 large_range
                (replicate (length large_range) 0)) as Hout.
  rewrite Hsort in Hout.
  destruct Hout as [_ Hfit].
  - unfold UINT32_MOD. lia.
  - apply length_replicate.
  - pose proof large_range_length. lia.
Qed.

(** C6 (amended). For every pass over a range of at most [INT_MAX]
    elements the tally returns normally with [2 ^ Pass] counts whose sum
    is the length of the range. *)
Theorem bucket_counts_sum_to_length {T} `{Inhabited T} (Pass N : Z) (getter : T → Z)
    (pass : Z) (src : list T) :
  radix_sort.instantiates Pass N = true →
  Z.of_nat (length src) ≤ INT_MAX →
  ∃ counts,
    radix_sort.tally Pass getter pass src
      (replicate (Z.to_nat (radix_sort.n_buckets Pass)) 0) = Ok counts ∧
    Z.of_nat (length counts) = 2 ^ Pass ∧
    sumZ counts = Z.of_nat (length src).
Proof.
  intros Hinst Hsrc.
  destruct (sort_phases Pass N getter Hinst pass src src Hsrc eq_refl)
    as (counts & _ & _ & Htally & Hlen & Hcounts & _).
  pose proof (n_buckets_int Pass N Hinst) as Hn.
  exists counts. split_and!; [done| |].
  - rewrite Hlen, Z2Nat.id by lia. by apply n_buckets_pow with N.
  - rewrite <- (take_ge counts (Z.to_nat (radix_sort.n_buckets Pass))) by lia.
    rewrite (sumZ_take_counts (radix_sort.bucket_of Pass getter pass)
               (Z.to_nat (radix_sort.n_buckets Pass)) counts src); [|done| |done].
    + rewrite below_all; [done|]. apply Forall_forall. intros x _.
      pose proof (bucket_of_range Pass N getter Hinst pass x). lia.
    + apply Forall_forall. intros x _.
      pose proof (bucket_of_range Pass N getter Hinst pass x). lia.
Qed.

Lemma bucket_counts_sum_to_length_witness :
  radix_sort.instantiates 4 8 = true ∧
  Z.of_nat (length [200; 3; 45; 0; 255; 128]) ≤ INT_MAX ∧
  ∃ counts,
    radix_sort.tally 4 identity 0 [200; 3; 45; 0; 255; 128]
      (replicate (Z.to_nat (radix_sort.n_buckets 4)) 0) = Ok counts ∧
    Z.of_nat (length counts) = 2 ^ 4 ∧
    sumZ counts = Z.of_nat (length [200; 3; 45; 0; 255; 128]).
Proof.
  assert (radix_sort.instantiates 4 8 = true) as Hinst by reflexivity.
  assert (Z.of_nat (length [200; 3; 45; 0; 255; 128]) ≤ INT_MAX) as Hfit
    by (vm_compute; discriminate).
  split_and!; [exact Hinst|exact Hfit|].
  exact (bucket_counts_sum_to_length 4 8 identity 0 [200; 3; 45; 0; 255; 128] Hinst Hfit).
Defined.

(** C6, as stated, fails when one bucket receives more than [INT_MAX]
    elements: its count overflows and the tally yields no counts. *)
Lemma tally_undefined_on_large_range :
  radix_sort.instantiates 8 8 = true ∧
  ¬ ∃ counts,
      radix_sort.tally 8 identity 0 large_range
        (replicate (Z.to_nat (radix_sort.n_buckets 8)) 0) = Ok counts ∧
      sumZ counts = Z.of_nat (length large_range).
Proof.
  assert (radix_sort.instantiates 8 8 = true) as Hinst by reflexivity.
  split; [done|]. intros (counts & Htally & _).
  pose proof (tally_outcome 8 8 identity Hinst 0 large_range
                (replicate (Z.to_nat (radix_sort.n_buckets 8)) 0)) as Hout.
  cbv zeta in Hout. rewrite Htally in Hout.
  destruct Hout as [_ Hcounts].
  - by rewrite length_replicate.
  - intros b c [-> _]%lookup_replicate. unfold INT_MAX. lia.
  - destruct (Hcounts 0%nat 0) as [_ Hfit].
    { apply lookup_replicate_2. vm_compute. lia. }
    pose proof (large_range_zeros (radix_sort.bucket_of 8 identity 0)) as Hzeros.
    clear -Hfit Hzeros. change (Z.of_nat 0) with 0 in Hfit.
    assert (radix_sort.bucket_of 8 identity 0 0 = 0) as Hd by (vm_compute; reflexivity).
    specialize (Hzeros Hd). lia.
Qed.




(** ** The whole radix sort *)

(** C9 (amended). For every getter and every range of at most [INT_MAX]
    elements, an engine with [N < 2 ^ 32] returns normally and leaves in
    the range the stable sort of its contents by [getter(x) mod 2 ^ N]:
    a permutation, non-decreasing in the [N] low bits of the key, in
    which elements agreeing on those bits, whatever their higher bits,
    keep their original relative order. *)
Theorem radix_sort_orders_by_low_bits {T} `{Inhabited T} (Pass N : Z)
    (engine : (T → Z) → list T → outcome (effect T)) (getter : T → Z) (l : list T) :
  radix_sort.instance Pass N = Some engine →
  N < UINT32_MOD →
  Z.of_nat (length l) ≤ INT_MAX →
  ∃ out,
    final_range <$> engine getter l = Ok out ∧
    out ≡ₚ l ∧
    sorted_by (λ x, getter x mod 2 ^ N) out ∧
    (∀ k, filter (λ x, getter x mod 2 ^ N = k) out
          = filter (λ x, getter x mod 2 ^ N = k) l) ∧
    (∀ other, stable_sort_by (λ x, getter x mod 2 ^ N) l other → other = out).
Proof.
  unfold radix_sort.instance.
  destruct (radix_sort.instantiates Pass N) eqn:Hinst; [|done].
  intros [= <-] HN Hl.
  destruct (call_spec Pass N getter Hinst HN l Hl) as (out & -> & Hsort).
  exists out. destruct Hsort as [Hperm Hsorted Hstable].
  split_and!; [done..|].
  intros other Hother. by eapply stable_sort_by_unique.
Qed.

Lemma radix_sort_orders_by_low_bits_witness :
  radix_sort.instance (T := Z * Z) 4 8 = Some (radix_sort.call 4 8) ∧
  8 < UINT32_MOD ∧
  Z.of_nat (length [(512, 0); (3, 1); (259, 2); (0, 3)]) ≤ INT_MAX ∧
  ∃ out,
    final_range <$> radix_sort.call 4 8 fst [(512, 0); (3, 1); (259, 2); (0, 3)] = Ok out ∧
    out ≡ₚ [(512, 0); (3, 1); (259, 2); (0, 3)] ∧
    sorted_by (λ x, x.1 mod 2 ^ 8) out ∧
    (∀ k, filter (λ x, x.1 mod 2 ^ 8 = k) out
          = filter (λ x, x.1 mod 2 ^ 8 = k) [(512, 0); (3, 1); (259, 2); (0, 3)]) ∧
    (∀ other,
       stable_sort_by (λ x, x.1 mod 2 ^ 8) [(512, 0); (3, 1); (259, 2); (0, 3)] other →
       other = out).
Proof.
  assert (radix_sort.instance (T := Z * Z) 4 8 = Some (radix_sort.call 4 8)) as Hinst
    by reflexivity.
  assert (8 < UINT32_MOD) as HN by reflexivity.
  assert (Z.of_nat (length [(512, 0); (3, 1); (259, 2); (0, 3)]) ≤ INT_MAX) as Hfit
    by (vm_compute; discriminate).
  split_and!; [exact Hinst|exact HN|exact Hfit|].
  exact (radix_sort_orders_by_low_bits 4 8 (radix_sort.call 4 8) fst
           [(512, 0); (3, 1); (259, 2); (0, 3)] Hinst HN Hfit).
Defined.

(** C9, as stated, fails on a range too long for the [int] counters. *)
Lemma radix_sort_low_bits_undefined_on_large_range :
  radix_sort.instance (T := Z) 4 8 = Some (radix_sort.call 4 8) ∧
  ¬ ∃ out,
      final_range <$> radix_sort.call 4 8 identity large_range = Ok out ∧
      stable_sort_by (λ x, identity x mod 2 ^ 8) large_range out.
Proof.
  split; [reflexivity|]. intros (out & Hcall & _).
  rewrite (call_overflow 4 8 identity) in Hcall.
  - discriminate.
  - reflexivity.
  - reflexivity.
  - lia.
  - apply large_range_length.
Qed.

(** C1 (amended). For every engine [radix_sort<Pass, N>] that
    instantiates, with [N < 2 ^ 32], every getter with keys in
    [0, 2 ^ N) and every range of at most [INT_MAX] elements, the call
    returns normally and leaves in the range a permutation of its
    contents that is non-decreasing by key and in which elements with
    equal keys keep their original relative order; it is the result of
    every stable sort by that key. *)
Theorem radix_sort_stable_on_int_ranges {T} `{Inhabited T} (Pass N : Z)
    (engine : (T → Z) → list T → outcome (effect T)) (getter : T → Z) (l : list T) :
  radix_sort.instance Pass N = Some engine →
  N < UINT32_MOD →
  Forall (λ x, 0 ≤ getter x < 2 ^ N) l →
  Z.of_nat (length l) ≤ INT_MAX →
  ∃ out,
    final_range <$> engine getter l = Ok out ∧
    out ≡ₚ l ∧
    sorted_by getter out ∧
    (∀ k, filter (λ x, getter x = k) out = filter (λ x, getter x = k) l) ∧
    (∀ other, stable_sort_by getter l other → other = out).
Proof.
  unfold radix_sort.instance.
  destruct (radix_sort.instantiates Pass N) eqn:Hinst; [|done].
  intros [= <-] HN Hkeys Hl.
  destruct (call_spec Pass N getter Hinst HN l Hl) as (out & -> & Hsort).
  apply (stable_sort_by_ext _ getter) in Hsort.
  2:{ eapply Forall_impl; [done|]. intros x Hx. simpl in *.
      unfold low_bits. by apply Z.mod_small. }
  exists out. destruct Hsort as [Hperm Hsorted Hstable].
  split_and!; [done..|].
  intros other Hother. by eapply stable_sort_by_unique.
Qed.

Lemma radix_sort_stable_on_int_ranges_witness :
  radix_sort.instance (T := Z) 4 8 = Some (radix_sort.call 4 8) ∧
  8 < UINT32_MOD ∧
  Forall (λ x, 0 ≤ identity x < 2 ^ 8) [200; 3; 45; 0; 255; 128] ∧
  Z.of_nat (length [200; 3; 45; 0; 255; 128]) ≤ INT_MAX ∧
  ∃ out,
    final_range <$> radix_sort.call 4 8 identity [200; 3; 45; 0; 255; 128] = Ok out ∧
    out ≡ₚ [200; 3; 45; 0; 255; 128] ∧
    sorted_by identity out ∧
    (∀ k, filter (λ x, identity x = k) out = filter (λ x, identity x = k) [200; 3; 45; 0; 255; 128]) ∧
    (∀ other, stable_sort_by identity [200; 3; 45; 0; 255; 128] other → other = out).
Proof.
  assert (radix_sort.instance (T := Z) 4 8 = Some (radix_sort.call 4 8)) as Hinst
    by reflexivity.
  assert (8 < UINT32_MOD) as HN by reflexivity.
  assert (Forall (λ x, 0 ≤ identity x < 2 ^ 8) [200; 3; 45; 0; 255; 128]) as Hkeys.
  { repeat constructor; vm_compute; discriminate || reflexivity. }
  assert (Z.of_nat (length [200; 3; 45; 0; 255; 128]) ≤ INT_MAX) as Hfit
    by (vm_compute; discriminate).
  split_and!; [exact Hinst|exact HN|exact Hkeys|exact Hfit|].
  exact (radix_sort_stable_on_int_ranges 4 8 (radix_sort.call 4 8) identity
           [200; 3; 45; 0; 255; 128] Hinst HN Hkeys Hfit).
Defined.

(** C1, as stated, fails on a range too long for the [int] counters:
    [2 ^ 31] zeros followed by a one, with eight-bit keys, make the
    first pass overflow. *)
Lemma radix_sort_undefined_on_large_range :
  radix_sort.instance (T := Z) 8 8 = Some (radix_sort.call 8 8) ∧
  Forall (λ x, 0 ≤ identity x < 2 ^ 8) large_range ∧
  ¬ ∃ out,
      final_range <$> radix_sort.call 8 8 identity large_range = Ok out ∧
      out ≡ₚ large_range ∧
      sorted_by identity out.
Proof.
  split_and!; [reflexivity|apply large_range_keys|].
  intros (out & Hcall & _).
  rewrite (call_overflow 8 8 identity) in Hcall.
  - discriminate.
  - reflexivity.
  - reflexivity.
  - lia.
  - apply large_range_length.
Qed.

(** ** Sorting a sorted range *)

(** C8 (amended). [insertion_sort] returns a range that is non-decreasing
    under a strict weak ordering as it was, and applying it twice gives
    what applying it once gives.  So does [radix_sort], by the [N] low
    bits of the key, on ranges of at most [INT_MAX] elements.
    [std_sort] does when no two distinct elements of the range are equal
    under the comparator; [std::sort] does not promise the order of
    equal elements. *)
Theorem sorted_range_sorted_again {T} (l : list T) :
  (∀ compare : T → T → bool,
     strict_weak_order compare →
     (non_decreasing compare l → insertion_sort.call compare l = Ok l) ∧
     (∀ out, insertion_sort.call compare l = Ok out →
             insertion_sort.call compare out = Ok out)) ∧
  (∀ (Hi : Inhabited T) (Pass N : Z) (getter : T → Z),
     radix_sort.instantiates Pass N = true →
     N < UINT32_MOD →
     Z.of_nat (length l) ≤ INT_MAX →
     (sorted_by (λ x, getter x mod 2 ^ N) l →
        final_range <$> radix_sort.call Pass N getter l = Ok l) ∧
     (∀ out, final_range <$> radix_sort.call Pass N getter l = Ok out →
             final_range <$> radix_sort.call Pass N getter out = Ok out)) ∧
  (∀ (std__sort : (T → T → bool) → list T → list T) (compare : T → T → bool),
     std_sort_contract std__sort →
     strict_weak_order compare →
     (∀ x y, x ∈ l → y ∈ l → equivalent compare x y → x = y) →
     (non_decreasing compare l → std_sort.call std__sort compare l = Ok l) ∧
     (∀ out, std_sort.call std__sort compare l = Ok out →
             std_sort.call std__sort compare out = Ok out)).
Proof.
  split_and!.
  - intros compare Hswo.
    assert (Hins : ∀ s, non_decreasing compare s → insertion_sort.call compare s = Ok s).
    { intros s Hs.
      destruct (insertion_sort_spec compare Hswo s) as (out & -> & Hout). f_equal.
      apply (stable_sort_under_unique compare Hswo s); [done|].
      by split. }
    split; [apply Hins|].
    intros out Hout.
    destruct (insertion_sort_spec compare Hswo l) as (out' & Hcall & Hsort).
    rewrite Hcall in Hout. injection Hout as <-. apply Hins, Hsort.
  - intros Hi Pass N getter Hinst HN Hl.
    assert (Hrad : ∀ s, Z.of_nat (length s) ≤ INT_MAX →
              sorted_by (λ x, getter x mod 2 ^ N) s →
              final_range <$> radix_sort.call Pass N getter s = Ok s).
    { intros s Hfit Hs.
      destruct (call_spec Pass N getter Hinst HN s Hfit) as (out & -> & Hout).
      simpl. f_equal.
      apply (stable_sort_by_unique (λ x, low_bits N (getter x)) s); [done|].
      by split. }
    split; [by apply Hrad|].
    intros out Hout.
    destruct (call_spec Pass N getter Hinst HN l Hl) as (out' & Hcall & Hsort).
    rewrite Hcall in Hout. injection Hout as <-. apply Hrad.
    + by rewrite (Permutation_length (by_permutation _ _ _ Hsort)).
    + apply Hsort.
  - intros std__sort compare Hstd Hswo Hties.
    assert (Hsame : ∀ s, s ≡ₚ l → non_decreasing compare s → std__sort compare s = s).
    { intros s Hperm Hs.
      apply (StronglySorted_unique_strong (λ x y, compare y x = false)).
      - intros x y Hx Hy Hyx Hxy.
        rewrite (std_sort_permutes _ Hstd), Hperm in Hx. rewrite Hperm in Hy.
        by apply Hties.
      - by apply std_sort_sorts.
      - exact Hs.
      - apply (std_sort_permutes _ Hstd). }
    unfold std_sort.call. split.
    + intros Hs. f_equal. by apply Hsame.
    + intros out [= <-]. f_equal. apply Hsame.
      * apply (std_sort_permutes _ Hstd).
      * by apply std_sort_sorts.
Qed.

Lemma sorted_range_sorted_again_witness :
  (strict_weak_order Z.ltb ∧
   non_decreasing Z.ltb [0; 3; 3; 45; 128] ∧
   insertion_sort.call Z.ltb [0; 3; 3; 45; 128] = Ok [0; 3; 3; 45; 128]) ∧
  (radix_sort.instantiates 4 8 = true ∧
   8 < UINT32_MOD ∧
   Z.of_nat (length [0; 3; 3; 45; 128]) ≤ INT_MAX ∧
   sorted_by (λ x, identity x mod 2 ^ 8) [0; 3; 3; 45; 128] ∧
   final_range <$> radix_sort.call 4 8 identity [0; 3; 3; 45; 128]
   = Ok [0; 3; 3; 45; 128]) ∧
  (std_sort_contract (@descending_reversed Z) ∧
   (∀ x y, x ∈ [0; 3; 3; 45; 128] → y ∈ [0; 3; 3; 45; 128] →
           equivalent Z.ltb x y → x = y) ∧
   std_sort.call descending_reversed Z.ltb [0; 3; 3; 45; 128] = Ok [0; 3; 3; 45; 128]).
Proof.
  assert (radix_sort.instantiates 4 8 = true) as Hinst by reflexivity.
  assert (8 < UINT32_MOD) as HN by reflexivity.
  assert (Z.of_nat (length [0; 3; 3; 45; 128]) ≤ INT_MAX) as Hfit
    by (vm_compute; discriminate).
  assert (non_decreasing Z.ltb [0; 3; 3; 45; 128]) as Hsorted by repeat constructor.
  assert (sorted_by (λ x, identity x mod 2 ^ 8) [0; 3; 3; 45; 128]) as Hkeys
    by (repeat constructor; vm_compute; discriminate).
  assert (∀ x y, x ∈ [0; 3; 3; 45; 128] → y ∈ [0; 3; 3; 45; 128] →
                 equivalent Z.ltb x y → x = y) as Hties.
  { intros x y _ _ [Hxy%Z.ltb_ge Hyx%Z.ltb_ge]. lia. }
  destruct (sorted_range_sorted_again [0; 3; 3; 45; 128]) as (Hinsertion & Hradix & Hstd).
  split_and!;
    [exact swo_ltb|exact Hsorted| |exact Hinst|exact HN|exact Hfit|exact Hkeys| |
     exact descending_reversed_contract|exact Hties|].
  - exact (proj1 (Hinsertion Z.ltb swo_ltb) Hsorted).
  - exact (proj1 (Hradix _ 4 8 identity Hinst HN Hfit) Hkeys).
  - exact (proj1 (Hstd descending_reversed Z.ltb descending_reversed_contract swo_ltb Hties)
             Hsorted).
Defined.

(** C8, as stated, fails twice over.  [std_sort] forwards to
    [std::sort], which may exchange elements equal under the comparator:
    on twenty such elements a sort that partitions the range, as
    introsort does beyond sixteen elements, does not return them in the
    order they had.  And [radix_sort] has no result on a sorted range too
    long for its [int] counters. *)
Lemma sorted_range_not_always_kept :
  (std_sort_contract (@descending_reversed (Z * Z)) ∧
   strict_weak_order by_first ∧
   non_decreasing by_first tied_range ∧
   std_sort.call descending_reversed by_first tied_range ≠ Ok tied_range) ∧
  (radix_sort.instantiates 1 1 = true ∧
   sorted_by (λ x, identity x mod 2 ^ 1) large_range ∧
   ¬ ∃ out, final_range <$> radix_sort.call 1 1 identity large_range = Ok out).
Proof.
  split; split_and!.
  - apply descending_reversed_contract.
  - apply swo_by_first.
  - unfold tied_range. repeat constructor.
  - vm_compute. discriminate.
  - reflexivity.
  - apply large_range_sorted. lia.
  - intros (out & Hcall).
    rewrite (call_overflow 1 1 identity) in Hcall.
    + discriminate.
    + reflexivity.
    + reflexivity.
    + lia.
    + apply large_range_length.
Qed.

(** * Further properties of the engines *)

(** ** [insertion_sort] with an arbitrary comparator *)

Section InsertionSortAnyComparator.
Context {T : Type} (compare : T → T → bool).

Lemma loop_permutes (s : list T) :
  ∀ p, ∃ out,
    insertion_sort.loop compare (length s) (length p) (p ++ s) = Ok out ∧
    out ≡ₚ p ++ s.
Proof.
  induction s as [|x s IH]; intros p.
  - by exists (p ++ []).
  - destruct (loop_step compare (length s) p x s) as (p1 & p2 & -> & _ & _ & Hloop).
    simpl length at 1. rewrite Hloop.
    destruct (IH (p1 ++ x :: p2)) as (out & Hout & Hperm).
    exists out. split.
    + rewrite <- Hout. f_equal. rewrite !length_app. simpl. lia.
    + rewrite Hperm, <- !app_assoc. simpl.
      by rewrite (Permutation_middle p2 s x), !app_assoc, <- Permutation_middle.
Qed.

End InsertionSortAnyComparator.

(** X1. Whatever the comparator does, strict weak ordering or not,
    [insertion_sort] returns normally, without a single access outside
    the range, and the range ends as a permutation of what it was. *)
Theorem insertion_sort_permutes_under_any_comparator {T}
    (compare : T → T → bool) (l : list T) :
  ∃ out, insertion_sort.call compare l = Ok out ∧ out ≡ₚ l.
Proof.
  unfold insertion_sort.call. destruct l as [|x s].
  - by exists [].
  - rewrite decide_True by (simpl; lia).
    destruct (loop_permutes compare s [x]) as (out & Hout & Hperm).
    exists out. split; [|done].
    rewrite <- Hout. simpl. by rewrite Nat.sub_0_r.
Qed.

(** ** [insertion_sort] with a comparator that is not strict *)

Section InsertionSortNonStrict.
Context {T : Type} (key : T → Z).

(** The prefix sorted so far under [key(a) <= key(b)]: sorted by key,
    with every group of equal keys in the reverse of its original
    order. *)
Lemma insert_reversing (p0 p1 p2 : list T) x :
  p1 ++ p2 ≡ₚ p0 →
  sorted_by key (p1 ++ p2) →
  (∀ k, filter (λ z, key z = k) (p1 ++ p2) = reverse (filter (λ z, key z = k) p0)) →
  Forall (λ z, less_equal_by key x z = true) p2 →
  (∀ y, last p1 = Some y → less_equal_by key x y = false) →
  p1 ++ x :: p2 ≡ₚ p0 ++ [x] ∧
  sorted_by key (p1 ++ x :: p2) ∧
  (∀ k, filter (λ z, key z = k) (p1 ++ x :: p2)
        = reverse (filter (λ z, key z = k) (p0 ++ [x]))).
Proof.
  unfold less_equal_by. intros Hperm Hsorted Hrev Hp2 Hp1.
  rewrite Forall_forall in Hp2.
  apply StronglySorted_app in Hsorted as (Hcross & Hs1 & Hs2).
  assert (Forall (λ y, key y < key x) p1) as Hbefore.
  { destruct p1 as [|y0 p1'] using rev_ind; [constructor|]. clear IHp1'.
    specialize (Hp1 y0 (last_snoc _ _)). apply Z.leb_gt in Hp1.
    apply StronglySorted_app in Hs1 as (Hy0 & _ & _).
    apply Forall_app. split; [|by constructor].
    apply Forall_forall. intros y Hy.
    specialize (Hy0 y y0 Hy). simpl in Hy0.
    rewrite list_elem_of_singleton in Hy0. specialize (Hy0 eq_refl). lia. }
  rewrite Forall_forall in Hbefore.
  split_and!.
  - rewrite <- Permutation_middle, Hperm. by rewrite Permutation_app_comm.
  - apply StronglySorted_app_2; [|done|].
    + intros y z Hy [->|Hz]%elem_of_cons; [|by apply Hcross].
      specialize (Hbefore y Hy). lia.
    + apply StronglySorted_cons. split; [|done].
      apply Forall_forall. intros z Hz. apply Z.leb_le. by apply Hp2.
  - intros k. specialize (Hrev k).
    rewrite !filter_app in *. rewrite !filter_cons, filter_nil.
    case_decide as Hk.
    + rewrite reverse_app, <- Hrev. simpl.
      rewrite (filter_none _ p1); [done|].
      apply Forall_forall. intros y Hy. specialize (Hbefore y Hy). lia.
    + by rewrite app_nil_r.
Qed.

Lemma loop_reversing (s : list T) :
  ∀ p p0,
    p ≡ₚ p0 → sorted_by key p →
    (∀ k, filter (λ z, key z = k) p = reverse (filter (λ z, key z = k) p0)) →
    ∃ out,
      insertion_sort.loop (less_equal_by key) (length s) (length p) (p ++ s) = Ok out ∧
      out ≡ₚ p0 ++ s ∧
      sorted_by key out ∧
      ∀ k, filter (λ z, key z = k) out = reverse (filter (λ z, key z = k) (p0 ++ s)).
Proof.
  induction s as [|x s IH]; intros p p0 Hperm Hsorted Hrev.
  - exists p. by rewrite !app_nil_r.
  - destruct (loop_step (less_equal_by key) (length s) p x s)
      as (p1 & p2 & -> & Hp2 & Hp1 & Hloop).
    simpl length at 1. rewrite Hloop.
    destruct (insert_reversing p0 p1 p2 x Hperm Hsorted Hrev Hp2 Hp1)
      as (Hperm' & Hsorted' & Hrev').
    destruct (IH (p1 ++ x :: p2) (p0 ++ [x]) Hperm' Hsorted' Hrev')
      as (out & Hout & Hres).
    exists out. split.
    + rewrite <- Hout. f_equal. rewrite !length_app. simpl. lia.
    + by rewrite <- app_assoc in Hres.
Qed.

End InsertionSortNonStrict.

(** X2. With the comparator [key(a) <= key(b)], which is not strict,
    [insertion_sort] still returns a permutation in non-decreasing key
    order, but it is no longer stable: every group of elements with the
    same key comes out in the reverse of its original order. *)
Theorem insertion_sort_less_equal_reverses_ties {T} (key : T → Z) (l : list T) :
  ∃ out,
    insertion_sort.call (less_equal_by key) l = Ok out ∧
    out ≡ₚ l ∧
    sorted_by key out ∧
    ∀ k, filter (λ z, key z = k) out = reverse (filter (λ z, key z = k) l).
Proof.
  unfold insertion_sort.call. destruct l as [|x s].
  - exists []. split_and!; [done|done|constructor|done].
  - rewrite decide_True by (simpl; lia).
    destruct (loop_reversing key s [x] [x]) as (out & Hout & Hres).
    + done.
    + repeat constructor.
    + intros k. rewrite filter_cons, filter_nil. by case_decide.
    + exists out. split; [|done].
      rewrite <- Hout. simpl. by rewrite Nat.sub_0_r.
Qed.

(** ** Where [radix_sort] is defined *)

(** X3. One call of [sort] returns normally exactly when its source has
    at most [INT_MAX] elements; on every longer source it overflows an
    [int] counter, whatever the keys are. *)
Theorem radix_pass_defined_iff_fits {T} `{Inhabited T} (Pass N : Z) (getter : T → Z)
    (pass : Z) (src out : list T) :
  radix_sort.instantiates Pass N = true →
  0 ≤ pass < UINT32_MOD →
  length out = length src →
  ((∃ out', radix_sort.sort Pass getter src out pass = Ok out')
     ↔ Z.of_nat (length src) ≤ INT_MAX) ∧
  (radix_sort.sort Pass getter src out pass = Undefined SignedOverflow
     ↔ INT_MAX < Z.of_nat (length src)).
Proof.
  intros Hinst Hpass Hlen.
  pose proof (sort_outcome Pass N getter Hinst pass src out Hpass Hlen) as Hout.
  destruct (radix_sort.sort Pass getter src out pass) as [out'|f].
  - destruct Hout as [_ Hfit]. split; split; try done; [by exists out'|lia].
  - destruct Hout as [-> Hlong]. split; split; try done.
    + by intros [out' ?].
    + lia.
Qed.

Lemma radix_pass_defined_iff_fits_witness :
  radix_sort.instantiates 8 8 = true ∧
  0 ≤ 0 < UINT32_MOD ∧
  length [0; 0; 0] = length [10; 5; 7] ∧
  ∃ out', radix_sort.sort 8 identity [10; 5; 7] [0; 0; 0] 0 = Ok out'.
Proof.
  assert (radix_sort.instantiates 8 8 = true) as Hinst by reflexivity.
  assert (0 ≤ 0 < UINT32_MOD) as Hpass by (vm_compute; split; [discriminate|reflexivity]).
  assert (length [0; 0; 0] = length [10; 5; 7]) as Hlen by reflexivity.
  split_and!; [exact Hinst|apply Hpass|apply Hpass|exact Hlen|].
  apply (radix_pass_defined_iff_fits 8 8 identity 0 [10; 5; 7] [0; 0; 0] Hinst Hpass Hlen).
  vm_compute. discriminate.
Defined.

(** X4. A call of an engine with at least one pass returns normally
    exactly when the range has at most [INT_MAX] elements, and overflows
    an [int] counter on every longer range. *)
Theorem radix_sort_defined_iff_fits {T} `{Inhabited T} (Pass N : Z) (getter : T → Z)
    (l : list T) :
  radix_sort.instantiates Pass N = true →
  N < UINT32_MOD →
  0 < N →
  ((∃ e, radix_sort.call Pass N getter l = Ok e) ↔ Z.of_nat (length l) ≤ INT_MAX) ∧
  (radix_sort.call Pass N getter l = Undefined SignedOverflow
     ↔ INT_MAX < Z.of_nat (length l)).
Proof.
  intros Hinst HN Hpos.
  destruct (decide (Z.of_nat (length l) ≤ INT_MAX)) as [Hfit|Hlong].
  - destruct (call_spec Pass N getter Hinst HN l Hfit) as (out & Hcall & _).
    rewrite Hcall. split; split; try done; [by eexists|lia].
  - rewrite (call_overflow Pass N getter Hinst HN l Hpos) by lia.
    split; split; try done; [by intros [e ?]|lia].
Qed.

Lemma radix_sort_defined_iff_fits_witness :
  radix_sort.instantiates 4 8 = true ∧
  8 < UINT32_MOD ∧
  0 < 8 ∧
  Z.of_nat (length [200; 3; 45; 0; 255; 128]) ≤ INT_MAX ∧
  ∃ e, radix_sort.call 4 8 identity [200; 3; 45; 0; 255; 128] = Ok e.
Proof.
  assert (radix_sort.instantiates 4 8 = true) as Hinst by reflexivity.
  assert (8 < UINT32_MOD) as HN by reflexivity.
  assert (0 < 8) as Hpos by reflexivity.
  assert (Z.of_nat (length [200; 3; 45; 0; 255; 128]) ≤ INT_MAX) as Hfit
    by (vm_compute; discriminate).
  split_and!; [exact Hinst|exact HN|exact Hpos|exact Hfit|].
  apply (radix_sort_defined_iff_fits 4 8 identity [200; 3; 45; 0; 255; 128]
           Hinst HN Hpos).
  exact Hfit.
Defined.

(** ** What the result of [radix_sort] does not depend on *)

(** X5. The outcome of a pass does not depend on what the destination
    held before, and the outcome of a call does not depend on the values
    the auxiliary buffer is filled with when it is constructed. *)
Theorem radix_sort_ignores_buffer_contents {T} (first second : Inhabited T)
    (Pass N : Z) (getter : T → Z) :
  radix_sort.instantiates Pass N = true →
  N < UINT32_MOD →
  (∀ pass (src out out' : list T),
     0 ≤ pass < UINT32_MOD →
     length out = length src → length out' = length src →
     radix_sort.sort Pass getter src out pass
     = radix_sort.sort Pass getter src out' pass) ∧
  (∀ l : list T,
     @radix_sort.call T first Pass N getter l
     = @radix_sort.call T second Pass N getter l).
Proof.
  intros Hinst HN. split.
  - intros pass src out out' Hpass Hlen Hlen'.
    pose proof (sort_outcome Pass N getter Hinst pass src out Hpass Hlen) as Hout.
    pose proof (sort_outcome Pass N getter Hinst pass src out' Hpass Hlen') as Hout'.
    destruct (radix_sort.sort Pass getter src out pass) as [r|f],
             (radix_sort.sort Pass getter src out' pass) as [r'|f'].
    + destruct Hout as [-> _], Hout' as [-> _]. done.
    + destruct Hout as [_ ?], Hout' as [_ ?]. lia.
    + destruct Hout as [_ ?], Hout' as [_ ?]. lia.
    + destruct Hout as [-> _], Hout' as [-> _]. done.
  - intros l.
    destruct (decide (Z.of_nat (length l) ≤ INT_MAX)) as [Hfit|Hlong].
    { destruct (call_spec (H := first) Pass N getter Hinst HN l Hfit)
        as (out & -> & Hsort).
      destruct (call_spec (H := second) Pass N getter Hinst HN l Hfit)
        as (out' & -> & Hsort').
      by rewrite (stable_sort_by_unique _ _ _ _ Hsort Hsort'). }
    destruct (decide (0 < N)) as [Hpos|Hzero].
    { rewrite (call_overflow (H := first) Pass N getter Hinst HN l Hpos) by lia.
      by rewrite (call_overflow (H := second) Pass N getter Hinst HN l Hpos) by lia. }
    assert (N = 0) as -> by (pose proof (N_multiple Pass N Hinst); lia).
    unfold radix_sort.call. rewrite (n_passes_exact Pass 0 Hinst HN).
    case_decide; [|done].
    change (0 / Pass) with 0. done.
Qed.

Lemma radix_sort_ignores_buffer_contents_witness :
  radix_sort.instantiates 8 8 = true ∧
  8 < UINT32_MOD ∧
  radix_sort.sort 8 identity [10; 5; 7] [0; 0; 0] 0
  = radix_sort.sort 8 identity [10; 5; 7] [9; 9; 9] 0 ∧
  @radix_sort.call Z (populate 0) 8 8 identity [10; 5; 7]
  = @radix_sort.call Z (populate 77) 8 8 identity [10; 5; 7].
Proof.
  assert (radix_sort.instantiates 8 8 = true) as Hinst by reflexivity.
  assert (8 < UINT32_MOD) as HN by reflexivity.
  destruct (radix_sort_ignores_buffer_contents (populate 0) (populate 77) 8 8 identity
              Hinst HN) as [Hpass Hcall].
  split_and!; [exact Hinst|exact HN| |exact (Hcall [10; 5; 7])].
  apply Hpass; [vm_compute; split; [discriminate|reflexivity]|reflexivity|reflexivity].
Defined.

(** X6. The pass width only decides how many passes are made: two
    engines for the same [N] with different [Pass] leave every range
    that fits in the same final state. *)
Theorem radix_sort_pass_width_is_immaterial {T} `{Inhabited T} (Pass Pass' N : Z)
    (getter : T → Z) (l : list T) :
  radix_sort.instantiates Pass N = true →
  radix_sort.instantiates Pass' N = true →
  N < UINT32_MOD →
  Z.of_nat (length l) ≤ INT_MAX →
  radix_sort.call Pass N getter l = radix_sort.call Pass' N getter l.
Proof.
  intros Hinst Hinst' HN Hfit.
  destruct (call_spec Pass N getter Hinst HN l Hfit) as (out & -> & Hsort).
  destruct (call_spec Pass' N getter Hinst' HN l Hfit) as (out' & -> & Hsort').
  by rewrite (stable_sort_by_unique _ _ _ _ Hsort Hsort').
Qed.

Lemma radix_sort_pass_width_is_immaterial_witness :
  radix_sort.instantiates 2 8 = true ∧
  radix_sort.instantiates 8 8 = true ∧
  8 < UINT32_MOD ∧
  Z.of_nat (length [200; 3; 45; 0; 255; 128]) ≤ INT_MAX ∧
  radix_sort.call 2 8 identity [200; 3; 45; 0; 255; 128]
  = radix_sort.call 8 8 identity [200; 3; 45; 0; 255; 128].
Proof.
  assert (radix_sort.instantiates 2 8 = true) as Hinst by reflexivity.
  assert (radix_sort.instantiates 8 8 = true) as Hinst' by reflexivity.
  assert (8 < UINT32_MOD) as HN by reflexivity.
  assert (Z.of_nat (length [200; 3; 45; 0; 255; 128]) ≤ INT_MAX) as Hfit
    by (vm_compute; discriminate).
  split_and!; [exact Hinst|exact Hinst'|exact HN|exact Hfit|].
  exact (radix_sort_pass_width_is_immaterial 2 8 8 identity [200; 3; 45; 0; 255; 128]
           Hinst Hinst' HN Hfit).
Defined.

(** ** The engines compared *)

Section KeyComparators.
Context {T : Type} (key : T → Z).

Lemma equivalent_less_by (a x : T) : equivalent (less_by key) a x ↔ key x = key a.
Proof. unfold equivalent, less_by. rewrite !Z.ltb_ge. lia. Qed.

Lemma swo_less_by : strict_weak_order (less_by key).
Proof. exact (swo_by_key key). Qed.

(** A stable sort under [key(a) < key(b)] is a stable sort by [key]. *)
Lemma stable_sort_under_less_by (l out : list T) :
  stable_sort_under (less_by key) l out → stable_sort_by key l out.
Proof.
  intros [Hperm Hsorted Hstable]. split; [done| |].
  - eapply StronglySorted_ext_in; [|exact Hsorted].
    intros x y _ _. unfold less_by. by rewrite Z.ltb_ge.
  - intros k.
    destruct (filter (λ x, key x = k) l) as [|a t] eqn:Hl.
    + apply Permutation_nil_r. by rewrite Hperm, Hl.
    + assert (key a = k) as <-.
      { assert (a ∈ filter (λ x, key x = k) l) as Ha by (rewrite Hl; left).
        by apply list_elem_of_filter in Ha as [? _]. }
      rewrite <- Hl.
      rewrite <- (filter_ext_in (equivalent (less_by key) a) (λ x, key x = key a) out),
              <- (filter_ext_in (equivalent (less_by key) a) (λ x, key x = key a) l).
      * apply Hstable.
      * apply Forall_forall. intros x _. apply equivalent_less_by.
      * apply Forall_forall. intros x _. apply equivalent_less_by.
Qed.

Lemma insertion_sort_by_key (l : list T) :
  ∃ out, insertion_sort.call (less_by key) l = Ok out ∧ stable_sort_by key l out.
Proof.
  destruct (insertion_sort_spec (less_by key) swo_less_by l) as (out & Hcall & Hsort).
  exists out. split; [done|]. by apply stable_sort_under_less_by.
Qed.

End KeyComparators.

(** X7. On a range that fits, [radix_sort] leaves what [insertion_sort]
    leaves when it compares the [N] low bits of the keys with [<]; when
    every key lies in [0, 2 ^ N) that is [insertion_sort] comparing the
    keys themselves. *)
Theorem radix_sort_agrees_with_insertion_sort {T} `{Inhabited T} (Pass N : Z)
    (getter : T → Z) (l : list T) :
  radix_sort.instantiates Pass N = true →
  N < UINT32_MOD →
  Z.of_nat (length l) ≤ INT_MAX →
  final_range <$> radix_sort.call Pass N getter l
  = insertion_sort.call (less_by (λ x, getter x mod 2 ^ N)) l ∧
  (Forall (λ x, 0 ≤ getter x < 2 ^ N) l →
   final_range <$> radix_sort.call Pass N getter l
   = insertion_sort.call (less_by getter) l).
Proof.
  intros Hinst HN Hfit.
  destruct (call_spec Pass N getter Hinst HN l Hfit) as (out & -> & Hsort).
  simpl. split.
  - destruct (insertion_sort_by_key (λ x, getter x mod 2 ^ N) l) as (out' & -> & Hsort').
    f_equal. exact (stable_sort_by_unique _ _ _ _ Hsort Hsort').
  - intros Hkeys.
    destruct (insertion_sort_by_key getter l) as (out' & -> & Hsort').
    f_equal. refine (stable_sort_by_unique getter l _ _ _ Hsort').
    apply (stable_sort_by_ext (λ x, low_bits N (getter x))); [|done].
    eapply Forall_impl; [exact Hkeys|].
    intros x Hx. unfold low_bits. by apply Z.mod_small.
Qed.

Lemma radix_sort_agrees_with_insertion_sort_witness :
  radix_sort.instantiates 4 8 = true ∧
  8 < UINT32_MOD ∧
  Z.of_nat (length [(3, 0); (1, 1); (3, 2); (0, 3); (1, 4)]) ≤ INT_MAX ∧
  Forall (λ x : Z * Z, 0 ≤ x.1 < 2 ^ 8) [(3, 0); (1, 1); (3, 2); (0, 3); (1, 4)] ∧
  final_range <$> radix_sort.call 4 8 fst [(3, 0); (1, 1); (3, 2); (0, 3); (1, 4)]
  = insertion_sort.call (less_by fst) [(3, 0); (1, 1); (3, 2); (0, 3); (1, 4)].
Proof.
  assert (radix_sort.instantiates 4 8 = true) as Hinst by reflexivity.
  assert (8 < UINT32_MOD) as HN by reflexivity.
  assert (Z.of_nat (length [(3, 0); (1, 1); (3, 2); (0, 3); (1, 4)]) ≤ INT_MAX) as Hfit
    by (vm_compute; discriminate).
  assert (Forall (λ x : Z * Z, 0 ≤ x.1 < 2 ^ 8)
            [(3, 0); (1, 1); (3, 2); (0, 3); (1, 4)]) as Hkeys
    by (repeat constructor; vm_compute; discriminate).
  split_and!; [exact Hinst|exact HN|exact Hfit|exact Hkeys|].
  exact (proj2 (radix_sort_agrees_with_insertion_sort 4 8 fst
                  [(3, 0); (1, 1); (3, 2); (0, 3); (1, 4)] Hinst HN Hfit) Hkeys).
Defined.

(** X8. [std_sort] leaves what [insertion_sort] leaves whenever the
    comparator is a strict weak ordering under which no two distinct
    elements of the range are equivalent, whichever algorithm
    [std::sort] is. *)
Theorem std_sort_agrees_with_insertion_sort_without_ties {T}
    (std__sort : (T → T → bool) → list T → list T) (compare : T → T → bool)
    (l : list T) :
  std_sort_contract std__sort →
  strict_weak_order compare →
  (∀ x y, x ∈ l → y ∈ l → equivalent compare x y → x = y) →
  std_sort.call std__sort compare l = insertion_sort.call compare l.
Proof.
  intros Hstd Hswo Hties.
  destruct (insertion_sort_spec compare Hswo l) as (out & -> & [Hperm Hsorted _]).
  unfold std_sort.call. f_equal.
  apply (StronglySorted_unique_strong (λ x y, compare y x = false)).
  - intros x y Hx Hy Hyx Hxy.
    rewrite (std_sort_permutes _ Hstd) in Hx. rewrite Hperm in Hy.
    by apply Hties.
  - by apply std_sort_sorts.
  - exact Hsorted.
  - by rewrite (std_sort_permutes _ Hstd), Hperm.
Qed.

Lemma std_sort_agrees_with_insertion_sort_without_ties_witness :
  std_sort_contract (@descending_reversed (Z * Z)) ∧
  strict_weak_order by_first ∧
  (∀ x y, x ∈ [(3, 0); (1, 1); (2, 2)] → y ∈ [(3, 0); (1, 1); (2, 2)] →
          equivalent by_first x y → x = y) ∧
  std_sort.call descending_reversed by_first [(3, 0); (1, 1); (2, 2)]
  = insertion_sort.call by_first [(3, 0); (1, 1); (2, 2)].
Proof.
  assert (∀ x y, x ∈ [(3, 0); (1, 1); (2, 2)] → y ∈ [(3, 0); (1, 1); (2, 2)] →
                 equivalent by_first x y → x = y) as Hties.
  { intros x y Hx Hy [Hxy Hyx]. unfold by_first in Hxy, Hyx.
    apply Z.ltb_ge in Hxy, Hyx.
    repeat (apply elem_of_cons in Hx as [->|Hx]);
      repeat (apply elem_of_cons in Hy as [->|Hy]);
      try (by apply elem_of_nil in Hx); try (by apply elem_of_nil in Hy);
      simpl in *; first [reflexivity|lia]. }
  split_and!; [exact descending_reversed_contract|exact swo_by_first|exact Hties|].
  exact (std_sort_agrees_with_insertion_sort_without_ties descending_reversed by_first
           [(3, 0); (1, 1); (2, 2)] descending_reversed_contract swo_by_first Hties).
Defined.

(** ** Sorting by two keys *)

Section TwoKeys.
Context {T : Type} (major minor : T → Z).

(** Where [R] holds along a list and [R'] holds along each part of it
    with one value of [key], both hold along the list, the second between
    elements of one key. *)
Lemma StronglySorted_within (R R' : T → T → Prop) (key : T → Z) (l : list T) :
  StronglySorted R l →
  (∀ k, StronglySorted R' (filter (λ x, key x = k) l)) →
  StronglySorted (λ x y, R x y ∧ (key x = key y → R' x y)) l.
Proof.
  induction l as [|x t IH]; intros Hsorted Hparts; [constructor|].
  apply StronglySorted_inv in Hsorted as [Ht Hx].
  constructor.
  - apply IH; [done|]. intros k. specialize (Hparts k).
    rewrite filter_cons in Hparts. case_decide; [|done].
    by apply StronglySorted_inv in Hparts as [? _].
  - rewrite Forall_forall in Hx |- *. intros y Hy. split; [by apply Hx|].
    intros Hkey. specialize (Hparts (key x)).
    rewrite filter_cons_True in Hparts by done.
    apply StronglySorted_inv in Hparts as [_ Hparts].
    rewrite Forall_forall in Hparts. apply Hparts.
    by apply list_elem_of_filter.
Qed.

(** A stable sort by the minor key followed by one by the major key. *)
Lemma stable_sort_by_minor_then_major (l mid out : list T) :
  stable_sort_by minor l mid →
  stable_sort_by major mid out →
  out ≡ₚ l ∧
  StronglySorted (lexicographic major minor) out ∧
  ∀ j k, filter (λ x, major x = j ∧ minor x = k) out
         = filter (λ x, major x = j ∧ minor x = k) l.
Proof.
  intros [Hperm Hsorted Hstable] [Hperm' Hsorted' Hstable']. split_and!.
  - by rewrite Hperm'.
  - eapply StronglySorted_ext_in;
      [|apply (StronglySorted_within (λ x y, major x ≤ major y)
                 (λ x y, minor x ≤ minor y) major out)].
    + intros x y _ _ [Hle Hsame]. unfold lexicographic.
      destruct (decide (major x = major y)) as [Heq|Hne]; [right|left; lia].
      split; [done|]. by apply Hsame.
    + exact Hsorted'.
    + intros k. rewrite Hstable'. by apply StronglySorted_filter.
  - intros j k.
    rewrite <- !(list_filter_filter (λ x, major x = j) (λ x, minor x = k)).
    rewrite <- Hstable.
    rewrite !(list_filter_filter (λ x, major x = j) (λ x, minor x = k)).
    rewrite <- !(filter_ext_in (λ x, minor x = k ∧ major x = j)
                   (λ x, major x = j ∧ minor x = k))
      by (apply Forall_forall; intros x _; tauto).
    rewrite <- !(list_filter_filter (λ x, minor x = k) (λ x, major x = j)).
    by rewrite Hstable'.
Qed.

End TwoKeys.

(** X9. Two calls of [insertion_sort], first by a minor key and then by
    a major key, leave the range in lexicographic order of the two keys,
    with the elements that agree in both keys in their original
    order. *)
Theorem insertion_sort_twice_sorts_lexicographically {T} (major minor : T → Z)
    (l : list T) :
  ∃ out,
    insertion_sort.call (less_by minor) l ≫= insertion_sort.call (less_by major) = Ok out ∧
    out ≡ₚ l ∧
    StronglySorted (lexicographic major minor) out ∧
    ∀ j k, filter (λ x, major x = j ∧ minor x = k) out
           = filter (λ x, major x = j ∧ minor x = k) l.
Proof.
  destruct (insertion_sort_by_key minor l) as (mid & -> & Hmid).
  destruct (insertion_sort_by_key major mid) as (out & Hcall & Hout).
  exists out. split; [exact Hcall|].
  by apply (stable_sort_by_minor_then_major major minor l mid out).
Qed.



(** ** Keys of a signed type *)

Section SignedKeys.



Context {T : Type}.



End SignedKeys.


